(** * Sharded corpus reader and batch assembler

    A shallow embedding of [src/translation/sharded_dataset.py]: the
    [ShardedCSVDataset] pull cursor over a directory of CSV shards and the
    [ShardedBatchedIterator] built on top of it, followed by the properties
    of the streaming/batching pipeline.

    Python objects are records threaded explicitly through every call; a
    call returns its outcome together with the object as the call left it,
    so the mutations made before an exception is raised stay visible. *)

From Stdlib Require Import ZArith Lia Ascii.
From stdpp Require Import base option list strings gmap fin_maps.

(** ** Exceptions and outcomes *)

Inductive exn :=
| StopIteration
| IndexError
| KeyError
| NameError
| AttributeError
| TypeError
| NotImplementedError.

Inductive result (A : Type) :=
| Ok (a : A)
| Raise (e : exn).
Arguments Ok {A} a.
Arguments Raise {A} e.

Definition bind {A B} (r : result A) (k : A → result B) : result B :=
  match r with
  | Ok a => k a
  | Raise e => Raise e
  end.

Notation "x ←! r ; k" := (bind r (λ x, k))
  (at level 20, r at level 100, k at level 200, right associativity,
   format "'[' x  ←!  r ;  '/' k ']'").

Definition is_ok {A} (r : result A) : bool :=
  match r with Ok _ => true | Raise _ => false end.

(** [Entry_Type = Tuple[str, str]] *)
Definition Entry_Type : Type := string * string.

(** ** Python sequence indexing

    [l[i]] on a list: a negative index counts from the end, anything outside
    the list raises [IndexError]. *)
Definition py_getitem {A} (l : list A) (i : Z) : result A :=
  let n := Z.of_nat (length l) in
  let j := if (i <? 0)%Z then (i + n)%Z else i in
  if ((0 <=? j) && (j <? n))%Z
  then match l !! Z.to_nat j with
       | Some x => Ok x
       | None => Raise IndexError
       end
  else Raise IndexError.

(** ** The environment

    What the module imports and does not define: [os.listdir], the line
    counter [get_num_lines] of [utils] and [csv.reader].  The corpus is
    static, so each is a function of the path; every listed entry is taken
    to be a readable file: [open] and the reading through [csv.reader] do
    not raise here, and what is proved is proved under that assumption. *)
Record FileSystem := {
  listdir : string → list string;
  get_num_lines : string → nat;
  csv_reader : string → list (list string)
}.

(** [random.shuffle]: permutes a list in place, advancing the generator. *)
Class Shuffler := {
  rng : Type;
  random_shuffle : ∀ {A : Type}, rng → list A → list A * rng;
  random_shuffle_perm :
    ∀ (A : Type) (g : rng) (l : list A), (random_shuffle g l).1 ≡ₚ l
}.

(** A generator that reverses on odd draws. *)
#[export] Program Instance flip_shuffler : Shuffler := {|
  rng := nat;
  random_shuffle := λ A g l, (if Nat.odd g then reverse l else l, S g)
|}.
Next Obligation.
  intros A g l. simpl. destruct (Nat.odd g); [apply reverse_Permutation|done].
Qed.

(** File handles are numbered; the world records which are open and, most
    recent first, every [open] and [close] that happened. *)
Inductive io_event :=
| EvOpen (h : nat) (path : string)
| EvClose (h : nat).

Record World `{Shuffler} := {
  w_rng : rng;
  w_open : gset nat;
  w_next : nat;
  w_trace : list io_event
}.

Section world.
Context `{Shuffler}.

Definition new_world (g : rng) : World :=
  {| w_rng := g; w_open := ∅; w_next := 0; w_trace := [] |}.

(** [open(path)] *)
Definition fs_open (path : string) (w : World) : nat * World :=
  (w_next w,
   {| w_rng := w_rng w;
      w_open := {[ w_next w ]} ∪ w_open w;
      w_next := S (w_next w);
      w_trace := EvOpen (w_next w) path :: w_trace w |}).

(** [f.close()]; closing a closed file is allowed. *)
Definition fs_close (h : nat) (w : World) : World :=
  {| w_rng := w_rng w;
     w_open := w_open w ∖ {[ h ]};
     w_next := w_next w;
     w_trace := EvClose h :: w_trace w |}.

Definition set_rng (g : rng) (w : World) : World :=
  {| w_rng := g; w_open := w_open w; w_next := w_next w;
     w_trace := w_trace w |}.

(** [random.shuffle(l)] against the world's generator. *)
Definition shuffle_in {A} (l : list A) (w : World) : list A * World :=
  let r := random_shuffle (w_rng w) l in (r.1, set_rng r.2 w).

End world.

(** ** [os.path.join] (POSIX) for two components *)
Fixpoint ends_with_slash (s : string) : bool :=
  match s with
  | "" => false
  | String c "" => bool_decide (c = "/"%char)
  | String _ s' => ends_with_slash s'
  end.

Definition starts_with_slash (s : string) : bool :=
  match s with
  | String c _ => bool_decide (c = "/"%char)
  | "" => false
  end.

Definition path_sep (a : string) : string :=
  if bool_decide (a = "") || ends_with_slash a then "" else "/".

Definition path_join (a b : string) : string :=
  if starts_with_slash b then b else a +:+ path_sep a +:+ b.

(** ** [class ShardedDataset]

    The abstract stream: a length and a pull.  [__iter__] returns the
    object itself, so iterating is calling [__next__] again and again. *)
Class ShardedDataset `{Shuffler} (D : Type) := {
  ds_len : D → result nat;
  ds_next : D → World → result Entry_Type * D * World
}.

(** The base class itself: both methods raise. *)
Definition abstract_dataset `{Shuffler} : ShardedDataset unit :=
  {| ds_len := λ _, Raise NotImplementedError;
     ds_next := λ s w, (Raise NotImplementedError, s, w) |}.

(** ** [class ShardedCSVDataset] *)
Module ShardedCSVDataset.

Record t := {
  sharded_dir : string;
  shuffle : bool;
  sharded_files : list string;
  file_counts : gmap string nat;
  curr_file : option nat;
  curr_file_name : option string;
  curr_idx : Z;
  curr_data : list Entry_Type;
  shard_idx : Z
}.

Definition set_shard_idx (v : Z) (d : t) : t :=
  {| sharded_dir := sharded_dir d; shuffle := shuffle d;
     sharded_files := sharded_files d; file_counts := file_counts d;
     curr_file := curr_file d; curr_file_name := curr_file_name d;
     curr_idx := curr_idx d; curr_data := curr_data d; shard_idx := v |}.

Definition set_curr_idx (v : Z) (d : t) : t :=
  {| sharded_dir := sharded_dir d; shuffle := shuffle d;
     sharded_files := sharded_files d; file_counts := file_counts d;
     curr_file := curr_file d; curr_file_name := curr_file_name d;
     curr_idx := v; curr_data := curr_data d; shard_idx := shard_idx d |}.

Definition set_curr_data (v : list Entry_Type) (d : t) : t :=
  {| sharded_dir := sharded_dir d; shuffle := shuffle d;
     sharded_files := sharded_files d; file_counts := file_counts d;
     curr_file := curr_file d; curr_file_name := curr_file_name d;
     curr_idx := curr_idx d; curr_data := v; shard_idx := shard_idx d |}.

Definition set_curr_file (h : option nat) (name : option string) (d : t) : t :=
  {| sharded_dir := sharded_dir d; shuffle := shuffle d;
     sharded_files := sharded_files d; file_counts := file_counts d;
     curr_file := h; curr_file_name := name;
     curr_idx := curr_idx d; curr_data := curr_data d;
     shard_idx := shard_idx d |}.

(** [{file_name : get_num_lines(file_name) for file_name in files}]: keys
    are inserted left to right, a repeated key overwrites. *)
Definition count_lines (fs : FileSystem) (files : list string)
  : gmap string nat :=
  foldl (λ m f, <[f := get_num_lines fs f]> m) ∅ files.

(** [(row[0], row[1])] *)
Definition row_pair (row : list string) : result Entry_Type :=
  a ←! py_getitem row 0; b ←! py_getitem row 1; Ok (a, b).

(** [[(row[0], row[1]) for row in reader]] *)
Fixpoint materialise (rows : list (list string)) : result (list Entry_Type) :=
  match rows with
  | [] => Ok []
  | row :: rest =>
      p ←! row_pair row; ps ←! materialise rest; Ok (p :: ps)
  end.

Section methods.
Context `{Shuffler} (fs : FileSystem).

Definition __init__ (dir : string) (shuffle_flag : bool) (w : World)
  : t * World :=
  let files := path_join dir <$> listdir fs dir in
  let '(files, w) :=
    if shuffle_flag then shuffle_in files w else (files, w) in
  ({| sharded_dir := dir; shuffle := shuffle_flag;
      sharded_files := files; file_counts := count_lines fs files;
      curr_file := None; curr_file_name := None;
      curr_idx := 0; curr_data := []; shard_idx := -1 |}, w).

(** [sum(self.file_counts.values())] *)
Definition __len__ (d : t) : nat :=
  map_fold (λ _ c acc, c + acc) 0 (file_counts d).

Definition reset (d : t) : t :=
  {| sharded_dir := sharded_dir d; shuffle := shuffle d;
     sharded_files := sharded_files d; file_counts := file_counts d;
     curr_file := None; curr_file_name := None;
     curr_idx := 0; curr_data := []; shard_idx := -1 |}.

(** The guard of [__next__]:
    [self.curr_file is None or
     self.curr_idx >= self.file_counts[self.curr_file_name]]. *)
Definition need_shard (d : t) : result bool :=
  match curr_file d with
  | None => Ok true
  | Some _ =>
      match curr_file_name d ≫= (file_counts d !!.) with
      | None => Raise KeyError
      | Some c => Ok (bool_decide (Z.of_nat c ≤ curr_idx d)%Z)
      end
  end.

(** The tail of [__next__]:
    [val = self.curr_data[self.curr_idx]; self.curr_idx += 1; return val]. *)
Definition fetch (d : t) (w : World) : result Entry_Type * t * World :=
  match py_getitem (curr_data d) (curr_idx d) with
  | Ok val => (Ok val, set_curr_idx (curr_idx d + 1) d, w)
  | Raise e => (Raise e, d, w)
  end.

(** [self.curr_file.close() if self.curr_file is not None else None] *)
Definition close_curr (d : t) (w : World) : World :=
  match curr_file d with
  | Some h => fs_close h w
  | None => w
  end.

(** The body of the [if]: close the old file, step to the next shard and
    read it into memory. *)
Definition load_shard (d : t) (w : World) : result unit * t * World :=
  let w := close_curr d w in
  let d := set_shard_idx (shard_idx d + 1) d in
  if bool_decide (Z.of_nat (length (sharded_files d)) ≤ shard_idx d)%Z
  then (Raise StopIteration, d, w)
  else
    match py_getitem (sharded_files d) (shard_idx d) with
    | Raise e => (Raise e, d, w)
    | Ok file_name =>
        let '(h, w) := fs_open file_name w in
        let d := set_curr_idx 0 (set_curr_file (Some h) (Some file_name) d) in
        match materialise (csv_reader fs file_name) with
        | Raise e => (Raise e, d, w)
        | Ok rows =>
            let '(rows, w) :=
              if shuffle d then shuffle_in rows w else (rows, w) in
            (Ok (), set_curr_data rows d, w)
        end
    end.

Definition __next__ (d : t) (w : World) : result Entry_Type * t * World :=
  match need_shard d with
  | Raise e => (Raise e, d, w)
  | Ok false => fetch d w
  | Ok true =>
      match load_shard d w with
      | (Raise e, d, w) => (Raise e, d, w)
      | (Ok _, d, w) => fetch d w
      end
  end.

(** The reader as a [ShardedDataset]. *)
#[export] Instance dataset : ShardedDataset t :=
  {| ds_len := λ d, Ok (__len__ d); ds_next := __next__ |}.

(** [n] calls of [__next__] in a row, whatever each one does: the outcomes
    in order and the final object and world. *)
Fixpoint pulls (n : nat) (d : t) (w : World)
  : list (result Entry_Type) * t * World :=
  match n with
  | 0 => ([], d, w)
  | S n =>
      let '(r, d, w) := __next__ d w in
      let '(rs, d, w) := pulls n d w in
      (r :: rs, d, w)
  end.

(** Draining: pull until a call raises, at most [fuel] times.  The pairs
    delivered, the exception that ended the drain ([None] when the fuel ran
    out first) and the final object and world. *)
Fixpoint drain (fuel : nat) (d : t) (w : World)
  : list Entry_Type * option exn * t * World :=
  match fuel with
  | 0 => ([], None, d, w)
  | S fuel =>
      match __next__ d w with
      | (Raise e, d, w) => ([], Some e, d, w)
      | (Ok p, d, w) =>
          let '(ps, e, d, w) := drain fuel d w in (p :: ps, e, d, w)
      end
  end.

End methods.
End ShardedCSVDataset.

(** ** [Vocabulary] *)

(** Modelled from the spec: the class [Vocabulary] of [vocab.py], which is
    not among the sources.  A token-to-id mapping with the two reserved ids;
    a lookup miss is not an error and resolves to the unknown id. *)
Record Vocabulary := {
  stoi : gmap string Z;
  unk_id : Z;
  pad_id : Z
}.

Definition word2idx (v : Vocabulary) (word : string) : Z :=
  default (unk_id v) (stoi v !! word).

(** ** Strings as Python sequences *)

(** [for word in s] over a [str]: one string per character. *)
Fixpoint chars (s : string) : list string :=
  match s with
  | "" => []
  | String c s' => String c "" :: chars s'
  end.

Definition is_space (c : ascii) : bool :=
  let n := nat_of_ascii c in
  bool_decide (n = 32) || bool_decide (9 ≤ n ≤ 13)
  || bool_decide (28 ≤ n ≤ 31).

(** Whitespace-delimited tokens ([s.split()]), as the specification words
    the tokenisation; [acc] is the token read so far. *)
Fixpoint split_whitespace_from (acc : string) (s : string) : list string :=
  let flush (rest : list string) :=
    if bool_decide (acc = "") then rest else acc :: rest in
  match s with
  | "" => flush []
  | String c s' =>
      if is_space c then flush (split_whitespace_from "" s')
      else split_whitespace_from (acc +:+ String c "") s'
  end.

Definition spec_tokenize (s : string) : list string :=
  split_whitespace_from "" s.

(** ** The fragment of [torch] the assembler touches

    Only tensors of dimension 0 and 1 arise.  [torch.Tensor(seq)] called on
    one Python sequence builds the 1-D tensor holding the elements of that
    sequence (a size is given as separate integers or as a [torch.Size]);
    [.long()] converts the elements to integers.  The elements are kept as
    written, which is what the two conversions do to integers below 2^24 in
    magnitude; the rounding to [float32] and the wrap-around to [int64] of
    larger ones are not modelled. *)
Inductive tensor :=
| Tscalar (v : Z)
| Tvector (vs : list Z).

Definition torch_Tensor (data : list Z) : tensor := Tvector data.

Definition long (x : tensor) : tensor := x.

(** [x[i]]: a 0-dim view of element [i]; a 0-dim tensor cannot be indexed. *)
Definition tensor_getitem (x : tensor) (i : Z) : result tensor :=
  match x with
  | Tscalar _ => Raise IndexError
  | Tvector vs => v ←! py_getitem vs i; Ok (Tscalar v)
  end.

(** [x[:stop] = vals] with a Python list on the right.  The value is
    converted before the slice is applied, and only a tensor or a number
    converts: a list is refused whatever [x] and [stop] are.  (A slice of
    a 0-dim view would be refused next.) *)
Definition tensor_setslice (x : tensor) (stop : Z) (vals : list Z)
  : result tensor :=
  Raise TypeError.

(** ** [class ShardedBatchedIterator] *)
Module ShardedBatchedIterator.

(** The module-level names a method body can see.  [sharded_dataset.py]
    binds no [batch_size] of its own, so the name resolves only if some
    other code has put one into the module. *)
Record Globals := { g_batch_size : option Z }.

Definition module_globals : Globals := {| g_batch_size := None |}.

Record t (D : Type) := {
  batch_size : Z;
  data : D;
  en_vocab : option Vocabulary;
  fr_vocab : option Vocabulary;
  max_sequence_length : Z
}.
Arguments batch_size {D} _.
Arguments data {D} _.
Arguments en_vocab {D} _.
Arguments fr_vocab {D} _.
Arguments max_sequence_length {D} _.

Definition set_data {D} (s : D) (it : t D) : t D :=
  {| batch_size := batch_size it; data := s; en_vocab := en_vocab it;
     fr_vocab := fr_vocab it;
     max_sequence_length := max_sequence_length it |}.

(** The constructor stores its arguments; [None] is a vocabulary that was
    not supplied. *)
Definition __init__ {D} (batch_size : Z) (data : D)
    (en_vocab fr_vocab : option Vocabulary) (max_sequence_length : Z)
  : result (t D) :=
  Ok {| batch_size := batch_size; data := data; en_vocab := en_vocab;
        fr_vocab := fr_vocab; max_sequence_length := max_sequence_length |}.

(** [[vocab.word2idx(word) for word in text]]: the attribute is looked up
    once per element, so a missing vocabulary goes unnoticed on [""]. *)
Definition encode (vocab : option Vocabulary) (text : string)
  : result (list Z) :=
  match chars text with
  | [] => Ok []
  | words =>
      match vocab with
      | None => Raise AttributeError
      | Some v => Ok (word2idx v <$> words)
      end
  end.

(** One round of the [for i in range(count)] loop: the right-hand side is
    evaluated first, then the target [x[i][:len(text)]] is assigned. *)
Definition fill_row (vocab : option Vocabulary) (x : tensor)
    (texts : list string) (i : Z) : result tensor :=
  text ←! py_getitem texts i;
  ids ←! encode vocab text;
  view ←! tensor_getitem x i;
  tensor_setslice view (Z.of_nat (String.length text)) ids.

Section methods.
Context `{Shuffler} {D : Type} `{!ShardedDataset D}.

(** [next(self.data, None)]: only [StopIteration] becomes the default. *)
Definition next_or_none (s : D) (w : World)
  : result (option Entry_Type) * D * World :=
  match ds_next s w with
  | (Ok v, s, w) => (Ok (Some v), s, w)
  | (Raise StopIteration, s, w) => (Ok None, s, w)
  | (Raise e, s, w) => (Raise e, s, w)
  end.

(** [while curr is not None and count < batch_size: ...], the bound being
    the global name.  [None] is returned when [fuel] rounds were not
    enough to leave the loop. *)
Fixpoint pull_loop (fuel : nat) (g : Globals) (curr : option Entry_Type)
    (src trg : list string) (count : Z) (s : D) (w : World)
  : option (result (list string * list string * Z) * D * World) :=
  match curr with
  | None => Some (Ok (src, trg, count), s, w)
  | Some c =>
      match g_batch_size g with
      | None => Some (Raise NameError, s, w)
      | Some bound =>
          if bool_decide (count < bound)%Z then
            match fuel with
            | 0 => None
            | S fuel =>
                match ds_next s w with
                | (Raise e, s, w) => Some (Raise e, s, w)
                | (Ok v, s, w) =>
                    pull_loop fuel g (Some v) (src ++ [c.1]) (trg ++ [c.2])
                      (count + 1) s w
                end
            end
          else Some (Ok (src, trg, count), s, w)
      end
  end.

(** Lines 135 to 142: allocate the two tensors, fill them row by row. *)
Definition assemble (it : t D) (src trg : list string) (count : Z)
  : result (tensor * tensor) :=
  let src_tensor := long (torch_Tensor [count; max_sequence_length it]) in
  let trg_tensor := long (torch_Tensor [count; max_sequence_length it]) in
  _ ←! foldl (λ acc i,
          _ ←! acc;
          _ ←! fill_row (en_vocab it) src_tensor src i;
          _ ←! fill_row (fr_vocab it) trg_tensor trg i;
          Ok ())
        (Ok ()) (Z.of_nat <$> seq 0 (Z.to_nat count));
  Ok (src_tensor, trg_tensor).

Definition loop_fuel (g : Globals) : nat :=
  Z.to_nat (default 0%Z (g_batch_size g)).

(** Lines 120 to 132: the first pull and the loop. *)
Definition pull_batch (g : Globals) (s : D) (w : World)
  : option (result (list string * list string * Z) * D * World) :=
  match next_or_none s w with
  | (Raise e, s, w) => Some (Raise e, s, w)
  | (Ok None, s, w) => Some (Raise StopIteration, s, w)
  | (Ok (Some c), s, w) => pull_loop (loop_fuel g) g (Some c) [] [] 0 s w
  end.

Definition __next__ (g : Globals) (it : t D) (w : World)
  : option (result (tensor * tensor) * t D * World) :=
  match pull_batch g (data it) w with
  | None => None
  | Some (Raise e, s, w) => Some (Raise e, set_data s it, w)
  | Some (Ok (src, trg, count), s, w) =>
      Some (assemble it src trg count, set_data s it, w)
  end.

(** The pull stage [n] times in a row on the same stream: for each round
    the number of pairs kept or the exception raised. *)
Fixpoint pull_counts (n : nat) (g : Globals) (s : D) (w : World)
  : list (option (result Z)) :=
  match n with
  | 0 => []
  | S n =>
      match pull_batch g s w with
      | None => [None]
      | Some (r, s, w) =>
          Some (bind r (λ b, Ok b.2)) :: pull_counts n g s w
      end
  end.

End methods.
End ShardedBatchedIterator.

(** ** Vocabulary used in the statements *)

(** The pair a well-formed row stands for. *)
Definition pair_of (row : list string) : Entry_Type :=
  match row with
  | a :: b :: _ => (a, b)
  | _ => ("", "")
  end.

(** A shard in the documented format: at least one line, one row per
    physical line, at least two fields in every row. *)
Definition well_formed_shard (fs : FileSystem) (f : string) : Prop :=
  0 < get_num_lines fs f
  ∧ length (csv_reader fs f) = get_num_lines fs f
  ∧ Forall (λ row, 2 ≤ length row) (csv_reader fs f).

(** What a reader can be asked to do. *)
Inductive call :=
| CallNext
| CallReset.

Section runs.
Context `{Shuffler} (fs : FileSystem).

(** The reader and the world once shard [f], whose rows materialise to
    [rows], has been read in after [d]. *)
Definition loaded (d : ShardedCSVDataset.t) (w : World) (f : string)
    (rows : list Entry_Type) : ShardedCSVDataset.t * World :=
  let ow := fs_open f (ShardedCSVDataset.close_curr d w) in
  let sh := if ShardedCSVDataset.shuffle d
            then shuffle_in rows ow.2 else (rows, ow.2) in
  (ShardedCSVDataset.set_curr_data sh.1
     (ShardedCSVDataset.set_curr_idx 0
        (ShardedCSVDataset.set_curr_file (Some ow.1) (Some f)
           (ShardedCSVDataset.set_shard_idx
              (ShardedCSVDataset.shard_idx d + 1) d))),
   sh.2).

(** A sequence of calls on one reader; [stops] counts the calls of
    [__next__] that signalled the end of the stream since the last
    [reset]. *)
Fixpoint run (cs : list call) (d : ShardedCSVDataset.t) (w : World)
    (stops : nat) : ShardedCSVDataset.t * World * nat :=
  match cs with
  | [] => (d, w, stops)
  | CallNext :: cs =>
      let '(r, d, w) := ShardedCSVDataset.__next__ fs d w in
      run cs d w
        (match r with Raise StopIteration => S stops | _ => stops end)
  | CallReset :: cs => run cs (ShardedCSVDataset.reset d) w 0
  end.

Import ShardedCSVDataset.

(** The five ways a call of [__next__] can go. *)
Inductive next_case (d : t) (w : World)
  : result Entry_Type → t → World → Prop :=
| case_key_error :
    need_shard d = Raise KeyError →
    next_case d w (Raise KeyError) d w
| case_fetch r d' w' :
    need_shard d = Ok false →
    fetch d w = (r, d', w') →
    next_case d w r d' w'
| case_stop :
    need_shard d = Ok true →
    (Z.of_nat (length (sharded_files d)) ≤ shard_idx d + 1)%Z →
    next_case d w (Raise StopIteration)
      (set_shard_idx (shard_idx d + 1) d) (close_curr d w)
| case_load_fail f e :
    need_shard d = Ok true →
    sharded_files d !! Z.to_nat (shard_idx d + 1) = Some f →
    materialise (csv_reader fs f) = Raise e →
    next_case d w (Raise e)
      (set_curr_idx 0
         (set_curr_file (Some (w_next (close_curr d w))) (Some f)
            (set_shard_idx (shard_idx d + 1) d)))
      (fs_open f (close_curr d w)).2
| case_load f rows r d' w' :
    need_shard d = Ok true →
    sharded_files d !! Z.to_nat (shard_idx d + 1) = Some f →
    materialise (csv_reader fs f) = Ok rows →
    fetch (loaded d w f rows).1 (loaded d w f rows).2 = (r, d', w') →
    next_case d w r d' w'.

End runs.

(** The stream delivers as many pairs as its length says: some number of
    calls return a pair, the next one signals the end of the stream, and
    that number is [__len__]. *)
Definition delivers_its_length `{Shuffler} (fs : FileSystem)
    (d : ShardedCSVDataset.t) (w : World) : Prop :=
  ∃ fuel ps d' w',
    ShardedCSVDataset.drain fs fuel d w = (ps, Some StopIteration, d', w')
    ∧ length ps = ShardedCSVDataset.__len__ d.

(** ** Invariants of the cursor *)

Section cursor.
Context `{Shuffler}.
Import ShardedCSVDataset.

(** The row index stays within the buffer and the shard index does not go
    below its initial value. *)
Definition cursor_ok (d : t) : Prop :=
  (-1 ≤ shard_idx d)%Z
  ∧ (0 ≤ curr_idx d ≤ Z.of_nat (length (curr_data d)))%Z.

(** The only handle that may be open is the reader's current one. *)
Definition handles_ok (d : t) (w : World) : Prop :=
  w_open w ⊆ match curr_file d with Some h => {[ h ]} | None => ∅ end.

(** The events of closing the current file, if there is one. *)
Definition closing (d : t) : list io_event :=
  match curr_file d with
  | Some h => [EvClose h]
  | None => []
  end.

(** The reader without the identity of its handle. *)
Definition forget_handle (d : t) : t :=
  set_curr_file ((λ _, 0) <$> curr_file d) (curr_file_name d) d.

End cursor.

(** The rows still to come: the rest of the buffer and the parsed rows of
    the shards not reached yet. *)
Definition remaining (fs : FileSystem) (d : ShardedCSVDataset.t) : nat :=
  Z.to_nat (Z.of_nat (length (ShardedCSVDataset.curr_data d))
            - ShardedCSVDataset.curr_idx d)
  + sum_list ((λ f, length (csv_reader fs f)) <$>
      drop (Z.to_nat (ShardedCSVDataset.shard_idx d + 1))
        (ShardedCSVDataset.sharded_files d)).

(** ** Further invariants of the reader *)

Section reader_invariants.
Context `{Shuffler}.
Import ShardedCSVDataset.

(** Every shard of the list has an entry in the line-count index. *)
Definition covered (d : t) : Prop :=
  ∀ f, f ∈ sharded_files d → is_Some (file_counts d !! f).

(** A reader that holds a file knows its name, and the name is a shard. *)
Definition named_ok (d : t) : Prop :=
  is_Some (curr_file d) →
  ∃ f, curr_file_name d = Some f ∧ f ∈ sharded_files d.

(** Before the end of the stream the current file is open; once the shard
    index is past the last shard the guard keeps asking for a shard. *)
Definition live_ok (d : t) (w : World) : Prop :=
  ((shard_idx d < Z.of_nat (length (sharded_files d)))%Z →
   ∀ h, curr_file d = Some h → h ∈ w_open w)
  ∧ ((Z.of_nat (length (sharded_files d)) ≤ shard_idx d)%Z →
     need_shard d = Ok true).

End reader_invariants.

(** ** Pulling from any stream *)

Section streams.
Context `{Shuffler} {D : Type} `{!ShardedDataset D}.

(** Pull from a stream until a call raises, at most [n] times: the pairs,
    the exception met ([None] if [n] pulls all returned a pair) and the
    stream and world afterwards. *)
Fixpoint stream_drain (n : nat) (s : D) (w : World)
  : list Entry_Type * option exn * D * World :=
  match n with
  | 0 => ([], None, s, w)
  | S n =>
      match ds_next s w with
      | (Raise e, s, w) => ([], Some e, s, w)
      | (Ok p, s, w) =>
          let '(ps, e, s, w) := stream_drain n s w in (p :: ps, e, s, w)
      end
  end.

End streams.

(** ** Sample corpora *)

(** Shards [d/a] (two rows) and [d/b] (one row), one row per line. *)
Definition two_shards : FileSystem :=
  {| listdir := λ _, ["a"; "b"];
     get_num_lines := λ p, if bool_decide (p = "d/a") then 2 else 1;
     csv_reader := λ p,
       if bool_decide (p = "d/a")
       then [["x"; "y"]; ["u"; "v"]] else [["p"; "q"]] |}.

(** One shard whose only record has a line break inside its quoted first
    field: two physical lines, one parsed row. *)
Definition quoted_break : FileSystem :=
  {| listdir := λ _, ["s"];
     get_num_lines := λ _, 2;
     csv_reader := λ _, [[String "x" (String "010" "y"); "z"]] |}.

(** A directory without entries. *)
Definition empty_dir : FileSystem :=
  {| listdir := λ _, []; get_num_lines := λ _, 0; csv_reader := λ _, [] |}.

(** One shard of one line that has no comma: a single field. *)
Definition short_row : FileSystem :=
  {| listdir := λ _, ["s"];
     get_num_lines := λ _, 1;
     csv_reader := λ _, [["lonely"]] |}.

(** One shard of one line with two commas: three fields. *)
Definition three_fields : FileSystem :=
  {| listdir := λ _, ["s"];
     get_num_lines := λ _, 1;
     csv_reader := λ _, [["a"; "b"; "c"]] |}.

(** One shard that is an empty file. *)
Definition empty_shard : FileSystem :=
  {| listdir := λ _, ["s"]; get_num_lines := λ _, 0; csv_reader := λ _, [] |}.

(** ** Sample assembler *)

(** A vocabulary that knows [a] and [b]. *)
Definition sample_vocab : Vocabulary :=
  {| stoi := {[ "a" := 5%Z; "b" := 6%Z ]}; unk_id := 1%Z; pad_id := 0%Z |}.

(** The reader over [two_shards] (three pairs), not shuffled, in a world
    without open files. *)
Definition sample_reader : ShardedCSVDataset.t * World :=
  ShardedCSVDataset.__init__ two_shards "d" false
    (new_world (H:=flip_shuffler) 0).

(** That reader as the stream the assembler pulls from. *)
#[local] Instance sample_stream : ShardedDataset ShardedCSVDataset.t :=
  ShardedCSVDataset.dataset two_shards.

(** An assembler configured for batches of [b] rows of at most 4 ids. *)
Definition sample_iterator (b : Z)
  : ShardedBatchedIterator.t ShardedCSVDataset.t :=
  {| ShardedBatchedIterator.batch_size := b;
     ShardedBatchedIterator.data := sample_reader.1;
     ShardedBatchedIterator.en_vocab := Some sample_vocab;
     ShardedBatchedIterator.fr_vocab := Some sample_vocab;
     ShardedBatchedIterator.max_sequence_length := 4 |}.

(** The module with a [batch_size] put into it from outside. *)
Definition injected (b : Z) : ShardedBatchedIterator.Globals :=
  {| ShardedBatchedIterator.g_batch_size := Some b |}.

(** Shard [d/a] with two rows on two lines, then shard [d/b] whose two
    physical lines are one record of a single quoted field. *)
Definition short_after_good : FileSystem :=
  {| listdir := λ _, ["a"; "b"];
     get_num_lines := λ _, 2;
     csv_reader := λ p,
       if bool_decide (p = "d/a")
       then [["x"; "y"]; ["u"; "v"]]
       else [[String "l" (String "010" "y")]] |}.

(** Some call of [__next__], made on [d] after a number of earlier calls,
    leaves the reader on shard [f] having raised [IndexError] with the row
    index at or past the end of the buffer: the buffer was indexed out of
    range while [f] was current. *)
Definition buffer_overrun `{Shuffler} (fs : FileSystem)
    (d : ShardedCSVDataset.t) (w : World) (f : string) : Prop :=
  ∃ n,
    let st := ShardedCSVDataset.pulls fs n d w in
    let res := ShardedCSVDataset.__next__ fs st.1.2 st.2 in
    res.1.1 = Raise IndexError
    ∧ ShardedCSVDataset.curr_file_name res.1.2 = Some f
    ∧ (Z.of_nat (length (ShardedCSVDataset.curr_data res.1.2))
       ≤ ShardedCSVDataset.curr_idx res.1.2)%Z.

(** * Properties *)

(** ** Indexing and row materialisation *)

Lemma py_getitem_nonneg {A} (l : list A) (i : Z) :
  (0 ≤ i)%Z →
  py_getitem l i =
    match l !! Z.to_nat i with Some x => Ok x | None => Raise IndexError end.
Proof.
  intros Hi. unfold py_getitem.
  destruct (Z.ltb_spec i 0) as [?|_]; [lia|].
  destruct (Z.leb_spec 0 i) as [_|?]; [|lia]. simpl.
  destruct (Z.ltb_spec i (Z.of_nat (length l))) as [?|Hge]; [done|].
  rewrite lookup_ge_None_2; [done|lia].
Qed.

Lemma py_getitem_at {A} (l : list A) (i : nat) (x : A) :
  l !! i = Some x → py_getitem l (Z.of_nat i) = Ok x.
Proof.
  intros Hx. rewrite py_getitem_nonneg by lia. by rewrite Nat2Z.id, Hx.
Qed.

Lemma py_getitem_past {A} (l : list A) (i : Z) :
  (Z.of_nat (length l) ≤ i)%Z → py_getitem l i = Raise IndexError.
Proof.
  intros Hi. rewrite py_getitem_nonneg by lia.
  rewrite lookup_ge_None_2; [done|lia].
Qed.

Lemma row_pair_cases (row : list string) :
  ShardedCSVDataset.row_pair row =
    match row with
    | a :: b :: _ => Ok (a, b)
    | _ => Raise IndexError
    end.
Proof.
  unfold ShardedCSVDataset.row_pair.
  rewrite !py_getitem_nonneg by lia.
  by destruct row as [|a [|b rest]].
Qed.

Lemma materialise_well_formed (rows : list (list string)) :
  Forall (λ row, 2 ≤ length row) rows →
  ShardedCSVDataset.materialise rows = Ok (pair_of <$> rows).
Proof.
  induction 1 as [|row rows Hrow _ IH]; [done|].
  cbn [ShardedCSVDataset.materialise]. rewrite row_pair_cases, IH.
  destruct row as [|a [|b rest]]; simpl in *; [lia|lia|done].
Qed.

Lemma materialise_short_row (rows : list (list string)) :
  Exists (λ row, length row < 2) rows →
  ShardedCSVDataset.materialise rows = Raise IndexError.
Proof.
  induction 1 as [row rows Hrow|row rows _ IH];
    cbn [ShardedCSVDataset.materialise]; rewrite row_pair_cases.
  - destruct row as [|a [|b rest]]; simpl in *; [done|done|lia].
  - rewrite IH. by destruct row as [|a [|b rest]].
Qed.

Lemma materialise_length rows ps :
  ShardedCSVDataset.materialise rows = Ok ps → length ps = length rows.
Proof.
  revert ps. induction rows as [|row rows IH]; intros ps; simpl.
  - by intros [= <-].
  - destruct (ShardedCSVDataset.row_pair row); [|done]. simpl.
    destruct (ShardedCSVDataset.materialise rows) as [qs|]; [|done].
    simpl. intros [= <-]. simpl. by rewrite (IH qs).
Qed.

(** ** Paths *)

Lemma path_join_inj (dir a b : string) :
  starts_with_slash a = false → starts_with_slash b = false →
  path_join dir a = path_join dir b → a = b.
Proof.
  unfold path_join. intros -> ->. intros Heq.
  by do 2 apply (inj (String.append _)) in Heq.
Qed.

Lemma path_join_NoDup (dir : string) (names : list string) :
  NoDup names →
  Forall (λ n, starts_with_slash n = false) names →
  NoDup (path_join dir <$> names).
Proof.
  intros Hnd Hall. induction Hnd as [|n names Hn Hnd IH]; simpl.
  - constructor.
  - apply Forall_cons in Hall as [Hn0 Hall]. constructor; [|by apply IH].
    intros (m & Heq & Hm)%list_elem_of_fmap.
    rewrite Forall_forall in Hall.
    apply path_join_inj in Heq; [by subst|done|by apply Hall].
Qed.

(** ** The line-count index *)

Section index.
Context (fs : FileSystem).

Lemma count_lines_snoc (files : list string) (f : string) :
  ShardedCSVDataset.count_lines fs (files ++ [f]) =
  <[f := get_num_lines fs f]> (ShardedCSVDataset.count_lines fs files).
Proof. unfold ShardedCSVDataset.count_lines. by rewrite foldl_app. Qed.

Lemma count_lines_lookup (files : list string) (f : string) :
  ShardedCSVDataset.count_lines fs files !! f =
    if decide (f ∈ files) then Some (get_num_lines fs f) else None.
Proof.
  induction files as [|g files IH] using rev_ind.
  - rewrite decide_False; [done|]. by intros ?%elem_of_nil.
  - rewrite count_lines_snoc. destruct (decide (g = f)) as [->|Hne].
    + rewrite lookup_insert_eq, decide_True; [done|].
      apply elem_of_app. right. by apply list_elem_of_singleton.
    + rewrite lookup_insert_ne by done. rewrite IH.
      destruct (decide (f ∈ files)) as [Hin|Hin].
      * rewrite decide_True; [done|]. apply elem_of_app. by left.
      * rewrite decide_False; [done|].
        intros [?|?%list_elem_of_singleton]%elem_of_app; congruence.
Qed.

Lemma count_lines_elem (files : list string) (f : string) :
  f ∈ files →
  ShardedCSVDataset.count_lines fs files !! f = Some (get_num_lines fs f).
Proof. intros Hf. by rewrite count_lines_lookup, decide_True. Qed.

Lemma count_lines_sum (files : list string) :
  NoDup files →
  map_fold (λ _ c acc, c + acc) 0 (ShardedCSVDataset.count_lines fs files)
  = sum_list (get_num_lines fs <$> files).
Proof.
  induction files as [|f files IH] using rev_ind; intros Hnd.
  - unfold ShardedCSVDataset.count_lines. simpl. by rewrite map_fold_empty.
  - apply NoDup_app in Hnd as (Hnd & Hf & _).
    rewrite count_lines_snoc, map_fold_insert_L.
    + rewrite IH by done. rewrite fmap_app, sum_list_with_app. simpl. lia.
    + intros. lia.
    + rewrite count_lines_lookup, decide_False; [done|].
      intros Hin. apply (Hf f Hin). by apply list_elem_of_singleton.
Qed.

End index.

(** ** One call of [__next__], case by case *)

Section reader.
Context `{Shuffler} (fs : FileSystem).
Import ShardedCSVDataset.

Lemma set_curr_idx_same (d : t) : set_curr_idx (curr_idx d) d = d.
Proof. by destruct d. Qed.

Lemma need_shard_in (d : t) (h : nat) (f : string) (c : nat) :
  curr_file d = Some h → curr_file_name d = Some f →
  file_counts d !! f = Some c →
  need_shard d = Ok (bool_decide (Z.of_nat c ≤ curr_idx d)%Z).
Proof. unfold need_shard. intros -> -> Hc. simpl. by rewrite Hc. Qed.

Lemma fetch_at (d : t) (w : World) (p : Entry_Type) :
  (0 ≤ curr_idx d)%Z → curr_data d !! Z.to_nat (curr_idx d) = Some p →
  fetch d w = (Ok p, set_curr_idx (curr_idx d + 1) d, w).
Proof.
  intros Hi Hp. unfold fetch. by rewrite py_getitem_nonneg, Hp.
Qed.

Lemma fetch_past (d : t) (w : World) :
  (Z.of_nat (length (curr_data d)) ≤ curr_idx d)%Z →
  fetch d w = (Raise IndexError, d, w).
Proof. intros Hi. unfold fetch. by rewrite py_getitem_past. Qed.

(** Inside a shard whose count is not reached yet, the call is the fetch. *)
Lemma next_in_shard (d : t) (w : World) (h : nat) (f : string) (c : nat) :
  curr_file d = Some h → curr_file_name d = Some f →
  file_counts d !! f = Some c → (curr_idx d < Z.of_nat c)%Z →
  __next__ fs d w = fetch d w.
Proof.
  intros Hh Hf Hc Hi. unfold __next__.
  rewrite (need_shard_in d h f c) by done.
  by rewrite bool_decide_false by lia.
Qed.

(** Past the last shard the call signals the end of the stream. *)
Lemma next_stop (d : t) (w : World) :
  need_shard d = Ok true →
  (Z.of_nat (length (sharded_files d)) ≤ shard_idx d + 1)%Z →
  __next__ fs d w =
    (Raise StopIteration, set_shard_idx (shard_idx d + 1) d, close_curr d w).
Proof.
  intros Hn Hlast. unfold __next__, load_shard. rewrite Hn. simpl.
  by rewrite bool_decide_true by done.
Qed.

(** Stepping to a shard that materialises. *)
Lemma next_load (d : t) (w : World) (f : string) (rows : list Entry_Type) :
  need_shard d = Ok true → (-1 ≤ shard_idx d)%Z →
  sharded_files d !! Z.to_nat (shard_idx d + 1) = Some f →
  materialise (csv_reader fs f) = Ok rows →
  __next__ fs d w = fetch (loaded d w f rows).1 (loaded d w f rows).2.
Proof.
  intros Hn Hlo Hf Hrows. unfold __next__, load_shard, loaded.
  rewrite Hn. simpl.
  apply lookup_lt_Some in Hf as Hlt.
  rewrite bool_decide_false by lia.
  rewrite py_getitem_nonneg, Hf by lia. simpl. rewrite Hrows.
  destruct (shuffle d); [|done].
  by destruct (shuffle_in rows _).
Qed.

(** Stepping to a shard that does not: the exception leaves the reader on
    the new shard, row index 0, with the old buffer, and the file open. *)
Lemma next_load_fail (d : t) (w : World) (f : string) (e : exn) :
  need_shard d = Ok true → (-1 ≤ shard_idx d)%Z →
  sharded_files d !! Z.to_nat (shard_idx d + 1) = Some f →
  materialise (csv_reader fs f) = Raise e →
  __next__ fs d w =
    (Raise e,
     set_curr_idx 0
       (set_curr_file (Some (w_next (close_curr d w))) (Some f)
          (set_shard_idx (shard_idx d + 1) d)),
     (fs_open f (close_curr d w)).2).
Proof.
  intros Hn Hlo Hf Hrows. unfold __next__, load_shard.
  rewrite Hn. simpl.
  apply lookup_lt_Some in Hf as Hlt.
  rewrite bool_decide_false by lia.
  rewrite py_getitem_nonneg, Hf by lia. simpl. by rewrite Hrows.
Qed.

Lemma loaded_fields (d : t) (w : World) (f : string) (rows : list Entry_Type) :
  let d' := (loaded d w f rows).1 in
  sharded_dir d' = sharded_dir d ∧ shuffle d' = shuffle d
  ∧ sharded_files d' = sharded_files d ∧ file_counts d' = file_counts d
  ∧ curr_file d' = Some (w_next (close_curr d w))
  ∧ curr_file_name d' = Some f ∧ curr_idx d' = 0%Z
  ∧ shard_idx d' = (shard_idx d + 1)%Z
  ∧ curr_data d' ≡ₚ rows
  ∧ (shuffle d = false → curr_data d' = rows).
Proof.
  unfold loaded. simpl. repeat split; try done.
  - destruct (shuffle d); [|done]. apply random_shuffle_perm.
  - by intros ->.
Qed.

End reader.

(** ** Draining *)

Section draining.
Context `{Shuffler} (fs : FileSystem).
Import ShardedCSVDataset.

(** Inside a shard whose buffer is as long as its count, the rest of the
    buffer comes out in order and the drain goes on from the end of the
    shard. *)
Lemma drain_within (k : nat) :
  ∀ (d : t) (w : World) (fuel : nat) (h : nat) (f : string),
    curr_file d = Some h → curr_file_name d = Some f →
    file_counts d !! f = Some (length (curr_data d)) →
    (0 ≤ curr_idx d)%Z →
    Z.to_nat (curr_idx d) + k = length (curr_data d) →
    k ≤ fuel →
    drain fs fuel d w =
      let '(ps, e, d', w') :=
        drain fs (fuel - k)
          (set_curr_idx (Z.of_nat (length (curr_data d))) d) w in
      (drop (Z.to_nat (curr_idx d)) (curr_data d) ++ ps, e, d', w').
Proof.
  induction k as [|k IH]; intros d w fuel h f Hh Hf Hc Hi Hk Hfuel.
  - replace (Z.of_nat (length (curr_data d))) with (curr_idx d) by lia.
    rewrite set_curr_idx_same, Nat.sub_0_r, drop_ge by lia.
    by destruct (drain fs fuel d w) as [[[ps e] d'] w'].
  - destruct fuel as [|fuel]; [lia|].
    destruct (lookup_lt_is_Some_2 (curr_data d) (Z.to_nat (curr_idx d)))
      as [p Hp]; [lia|].
    cbn [drain].
    rewrite (next_in_shard fs d w h f (length (curr_data d))) by (done || lia).
    rewrite (fetch_at d w p) by done.
    rewrite (IH _ w fuel h f); simpl; try done; try lia.
    replace (S fuel - S k) with (fuel - k) by lia.
    replace (Z.to_nat (curr_idx d + 1)) with (S (Z.to_nat (curr_idx d)))
      by lia.
    rewrite (drop_S _ _ _ Hp).
    by destruct (drain fs (fuel - k) _ w) as [[[ps e] d'] w'].
Qed.

(** From the end of a shard, the well-formed shards that remain are
    delivered one after the other and then the stream ends. *)
Lemma drain_shards (rest : list string) :
  ∀ (pre : list string) (d : t) (w : World) (fuel : nat),
    sharded_files d = pre ++ rest →
    shard_idx d = (Z.of_nat (length pre) - 1)%Z →
    need_shard d = Ok true →
    Forall (λ f, file_counts d !! f = Some (get_num_lines fs f)
                 ∧ well_formed_shard fs f) rest →
    sum_list (get_num_lines fs <$> rest) < fuel →
    ∃ ps d' w',
      drain fs fuel d w = (ps, Some StopIteration, d', w')
      ∧ length ps = sum_list (get_num_lines fs <$> rest)
      ∧ ps ≡ₚ mjoin ((λ f, pair_of <$> csv_reader fs f) <$> rest)
      ∧ (shuffle d = false →
         ps = mjoin ((λ f, pair_of <$> csv_reader fs f) <$> rest)).
Proof.
  induction rest as [|f rest IH]; intros pre d w fuel Hfiles Hidx Hneed Hwf Hfuel.
  - destruct fuel as [|fuel]; [simpl in Hfuel; lia|].
    cbn [drain]. rewrite next_stop; [|done|].
    + by eexists _, _, _.
    + rewrite Hfiles, Hidx, length_app. simpl. lia.
  - apply Forall_cons in Hwf as [[Hc (Hpos & Hlen & Hrows)] Hwf].
    change (sum_list (get_num_lines fs <$> f :: rest))
      with (get_num_lines fs f + sum_list (get_num_lines fs <$> rest)) in *.
    destruct fuel as [|fuel]; [lia|].
    assert (sharded_files d !! Z.to_nat (shard_idx d + 1) = Some f) as Hf.
    { rewrite Hfiles, Hidx.
      replace (Z.to_nat _) with (length pre + 0) by lia.
      by rewrite lookup_app_r, Nat.add_sub' by lia. }
    pose proof (materialise_well_formed _ Hrows) as Hmat.
    cbn [drain].
    rewrite (next_load fs d w f _) by (done || lia).
    pose proof (loaded_fields d w f (pair_of <$> csv_reader fs f)) as HF.
    destruct (loaded d w f (pair_of <$> csv_reader fs f)) as [d1 w1].
    cbn [fst snd] in *.
    destruct HF as (_ & Hsh & Hfs & Hfc & Hcf & Hcn & Hci & Hsi & Hperm & Hdet).
    assert (length (curr_data d1) = get_num_lines fs f) as Hlen1.
    { by rewrite Hperm, length_fmap. }
    destruct (curr_data d1) as [|p data] eqn:Hdata; [simpl in Hlen1; lia|].
    rewrite (fetch_at d1 w1 p) by (rewrite ?Hci, ?Hdata; done).
    set (d2 := set_curr_idx (curr_idx d1 + 1) d1).
    assert (curr_data d2 = p :: data) as Hdata2 by done.
    assert (curr_idx d2 = 1%Z) as Hci2 by (subst d2; simpl; lia).
    rewrite (drain_within (length data) d2 w1 fuel
               (w_next (close_curr d w)) f); try done.
    + set (d3 := set_curr_idx _ d2).
      destruct (IH (pre ++ [f]) d3 w1 (fuel - length data))
        as (ps & d' & w' & Hdrain & Hps & Hpp & Hpd).
      * subst d3 d2. simpl. by rewrite Hfs, Hfiles, <-app_assoc.
      * subst d3 d2. simpl. rewrite Hsi, Hidx, length_app. simpl. lia.
      * subst d3 d2. unfold need_shard. simpl. rewrite Hcf, Hcn. simpl.
        rewrite Hfc, Hc. simpl. rewrite Hdata. simpl.
        rewrite bool_decide_true; [done|]. simpl in Hlen1. lia.
      * subst d3 d2. simpl. by rewrite Hfc.
      * simpl in Hfuel, Hlen1. lia.
      * rewrite Hdrain, Hdata2, Hci2. simpl. eexists _, _, _.
        split; [done|]. split; [|split].
        -- simpl. rewrite drop_0, length_app, Hps. simpl in Hlen1. lia.
        -- simpl. rewrite drop_0. by rewrite <-Hperm, <-Hpp.
        -- intros Hns. simpl. rewrite drop_0. subst d3 d2. simpl in Hpd.
           rewrite Hsh in Hpd. rewrite Hpd by done.
           by rewrite <-(Hdet Hns).
    + subst d2. simpl. rewrite Hfc, Hc, Hdata. f_equal. simpl in Hlen1.
      simpl. lia.
    + lia.
    + rewrite Hdata2, Hci2. simpl. lia.
    + simpl in Hfuel, Hlen1. lia.
Qed.

End draining.

(** ** Length and number of pairs of a fresh reader *)

(** C1, with the conditions it needs: when the directory entries are
    distinct names and every shard is in the documented format (at least
    one line, one row per physical line, at least two fields per row), a
    freshly constructed reader has a length equal to the sum of the line
    counts, exactly that many calls of [__next__] return a pair and the
    following call signals the end of the stream, with or without
    shuffling.  The pairs delivered are those of the shards, in listing
    order when the reader does not shuffle. *)
Theorem fresh_reader_delivers_line_counts `{Shuffler} (fs : FileSystem)
    (dir : string) (shuffle_flag : bool) (w : World) :
  NoDup (listdir fs dir) →
  Forall (λ n, starts_with_slash n = false
               ∧ well_formed_shard fs (path_join dir n)) (listdir fs dir) →
  let files := path_join dir <$> listdir fs dir in
  let total := sum_list (get_num_lines fs <$> files) in
  let d := (ShardedCSVDataset.__init__ fs dir shuffle_flag w).1 in
  let w0 := (ShardedCSVDataset.__init__ fs dir shuffle_flag w).2 in
  ShardedCSVDataset.__len__ d = total
  ∧ ∃ ps d' w',
      ShardedCSVDataset.drain fs (S total) d w0
        = (ps, Some StopIteration, d', w')
      ∧ length ps = total
      ∧ ps ≡ₚ mjoin ((λ f, pair_of <$> csv_reader fs f) <$> files)
      ∧ (shuffle_flag = false →
         ps = mjoin ((λ f, pair_of <$> csv_reader fs f) <$> files)).
Proof.
  intros Hnd Hall files total d w0.
  assert (NoDup files) as Hndf.
  { apply path_join_NoDup; [done|]. eapply Forall_impl; [done|]. by intros ? []. }
  assert (Forall (well_formed_shard fs) files) as Hwf.
  { subst files. apply Forall_fmap. eapply Forall_impl; [done|]. by intros ? []. }
  assert (∃ files', files' ≡ₚ files
            ∧ (shuffle_flag = false → files' = files)
            ∧ ShardedCSVDataset.sharded_files d = files'
            ∧ ShardedCSVDataset.file_counts d
              = ShardedCSVDataset.count_lines fs files'
            ∧ ShardedCSVDataset.shard_idx d = (-1)%Z
            ∧ ShardedCSVDataset.curr_file d = None
            ∧ ShardedCSVDataset.shuffle d = shuffle_flag)
    as (files' & Hperm & Hsame & Hfiles & Hcounts & Hidx & Hcf & Hsh).
  { subst d w0. unfold ShardedCSVDataset.__init__. fold files.
    destruct shuffle_flag.
    - unfold shuffle_in.
      eexists. split; [apply random_shuffle_perm|]. by repeat split.
    - eexists. by repeat split. }
  assert (ShardedCSVDataset.__len__ d = total) as Hlen.
  { unfold ShardedCSVDataset.__len__. rewrite Hcounts, count_lines_sum.
    - subst total. by rewrite Hperm.
    - by rewrite Hperm. }
  split; [done|].
  destruct (drain_shards fs files' [] d w0 (S total))
    as (ps & d' & w' & Hdrain & Hps & Hpp & Hpd).
  - done.
  - by rewrite Hidx.
  - unfold ShardedCSVDataset.need_shard. by rewrite Hcf.
  - rewrite Hcounts. apply Forall_forall. intros f Hf. split.
    + by apply count_lines_elem.
    + rewrite Forall_forall in Hwf. apply Hwf. by rewrite <-Hperm.
  - subst total. rewrite Hperm. lia.
  - exists ps, d', w'. split; [done|]. split; [|split].
    + rewrite Hps. subst total. by rewrite Hperm.
    + rewrite Hpp. by rewrite Hperm.
    + intros ->. rewrite Hpd by done. by rewrite Hsame.
Qed.

Lemma fresh_reader_delivers_line_counts_witness :
  NoDup (listdir two_shards "d")
  ∧ Forall (λ n, starts_with_slash n = false
                 ∧ well_formed_shard two_shards (path_join "d" n))
      (listdir two_shards "d")
  ∧ ShardedCSVDataset.__len__
      (ShardedCSVDataset.__init__ two_shards "d" true (new_world 1)).1 = 3
  ∧ ∃ ps d' w',
      ShardedCSVDataset.drain two_shards 4
        (ShardedCSVDataset.__init__ two_shards "d" true (new_world 1)).1
        (ShardedCSVDataset.__init__ two_shards "d" true (new_world 1)).2
      = (ps, Some StopIteration, d', w')
      ∧ length ps = 3.
Proof.
  assert (NoDup (listdir two_shards "d")) as Hnd.
  { apply (bool_decide_unpack _). vm_compute. exact I. }
  assert (Forall (λ n, starts_with_slash n = false
                       ∧ well_formed_shard two_shards (path_join "d" n))
            (listdir two_shards "d")) as Hall.
  { constructor; [|constructor; [|constructor]];
      (split; [reflexivity|]); vm_compute; repeat split; try lia;
      repeat constructor. }
  split; [exact Hnd|]. split; [exact Hall|].
  destruct (@fresh_reader_delivers_line_counts flip_shuffler
              two_shards "d" true (@new_world flip_shuffler 1) Hnd Hall)
    as (Hlen & ps & d' & w' & Hdrain & Hps & _).
  split; [exact Hlen|]. exists ps, d', w'. split; [exact Hdrain|exact Hps].
Defined.

(** C1 as worded fails on a directory whose single shard has a record
    spanning two physical lines: the length is 2, one call returns a pair
    and the second raises [IndexError]; the end of the stream is never
    signalled after exactly [__len__] pairs. *)
Lemma quoted_break_not_delivered :
  let d := (ShardedCSVDataset.__init__ quoted_break "d" false (new_world 0)).1 in
  let w := (ShardedCSVDataset.__init__ quoted_break "d" false (new_world 0)).2 in
  ShardedCSVDataset.__len__ d = 2
  ∧ (ShardedCSVDataset.drain quoted_break 3 d w).1.1
    = ([(String "x" (String "010" "y"), "z")], Some IndexError)
  ∧ ¬ delivers_its_length quoted_break d w.
Proof.
  split; [by vm_compute|]. split; [by vm_compute|].
  intros (fuel & ps & d' & w' & Hdrain & Hlen).
  destruct fuel as [|[|[|fuel]]]; vm_compute in Hdrain; congruence.
Qed.

(** ** Every outcome of a call *)

Section outcomes.
Context `{Shuffler} (fs : FileSystem).
Import ShardedCSVDataset.

Lemma need_shard_raises (d : t) (e : exn) :
  need_shard d = Raise e → e = KeyError.
Proof.
  unfold need_shard. destruct (curr_file d); [|done].
  destruct (curr_file_name d ≫= _); [done|]. by intros [= <-].
Qed.

Lemma fetch_cases (d : t) (w : World) :
  (0 ≤ curr_idx d)%Z →
  (∃ p, curr_data d !! Z.to_nat (curr_idx d) = Some p
        ∧ fetch d w = (Ok p, set_curr_idx (curr_idx d + 1) d, w))
  ∨ ((Z.of_nat (length (curr_data d)) ≤ curr_idx d)%Z
     ∧ fetch d w = (Raise IndexError, d, w)).
Proof.
  intros Hi.
  destruct (curr_data d !! Z.to_nat (curr_idx d)) as [p|] eqn:Hp.
  - left. exists p. split; [done|]. by apply fetch_at.
  - right. apply lookup_ge_None_1 in Hp.
    split; [lia|]. apply fetch_past. lia.
Qed.

Lemma next_cases (d : t) (w : World) :
  (-1 ≤ shard_idx d)%Z →
  next_case fs d w
    (__next__ fs d w).1.1 (__next__ fs d w).1.2 (__next__ fs d w).2.
Proof.
  intros Hlo. destruct (need_shard d) as [[|]|e] eqn:Hn.
  - destruct (decide (Z.of_nat (length (sharded_files d)) ≤ shard_idx d + 1)%Z)
      as [Hlast|Hmore].
    + rewrite next_stop by done. by apply case_stop.
    + destruct (lookup_lt_is_Some_2 (sharded_files d)
                  (Z.to_nat (shard_idx d + 1))) as [f Hf]; [lia|].
      destruct (materialise (csv_reader fs f)) as [rows|e] eqn:Hrows.
      * rewrite (next_load fs d w f rows) by done.
        eapply case_load; [done..|]. by destruct (fetch _ _) as [[??]?].
      * rewrite (next_load_fail fs d w f e) by done.
        by eapply case_load_fail.
  - unfold __next__. rewrite Hn. eapply case_fetch; [done|].
    by destruct (fetch _ _) as [[??]?].
  - unfold __next__. rewrite Hn. simpl.
    pose proof (need_shard_raises d e Hn) as ->. by apply case_key_error.
Qed.

End outcomes.

(** ** What a call does to the cursor and to the open files *)

Section invariants.
Context `{Shuffler} (fs : FileSystem).
Import ShardedCSVDataset.

Lemma loaded_world (d : t) (w : World) (f : string) (rows : list Entry_Type) :
  let w' := (loaded d w f rows).2 in
  w_open w' = {[ w_next w ]} ∪ w_open (close_curr d w)
  ∧ w_trace w' = EvOpen (w_next w) f :: closing d ++ w_trace w.
Proof.
  unfold loaded, close_curr, closing.
  destruct (shuffle d), (curr_file d); simpl; by split.
Qed.

Lemma close_curr_open (d : t) (w : World) :
  handles_ok d w → w_open (close_curr d w) = ∅.
Proof.
  unfold handles_ok, close_curr. rewrite elem_of_subseteq. intros Hok.
  destruct (curr_file d) as [h|]; simpl.
  - apply set_eq. intros x. rewrite elem_of_difference, elem_of_empty.
    split; [|done]. intros [Hx Hne]. apply Hne. by apply Hok.
  - apply set_eq. intros x. rewrite elem_of_empty. split; [|done].
    intros Hx. by apply (not_elem_of_empty (C:=gset nat) x), Hok.
Qed.

Lemma close_curr_trace (d : t) (w : World) :
  w_trace (close_curr d w) = closing d ++ w_trace w.
Proof. unfold close_curr, closing. by destruct (curr_file d). Qed.

(** The static part of the reader never changes, the cursor stays within
    bounds, and the shard index moves past the last shard only in a call
    that signals the end of the stream. *)
Lemma next_case_cursor (d d' : t) (w w' : World) (r : result Entry_Type) :
  next_case fs d w r d' w' → cursor_ok d →
  cursor_ok d'
  ∧ sharded_dir d' = sharded_dir d ∧ shuffle d' = shuffle d
  ∧ sharded_files d' = sharded_files d ∧ file_counts d' = file_counts d
  ∧ match r with
    | Raise StopIteration => shard_idx d' = (shard_idx d + 1)%Z
    | _ => shard_idx d' = shard_idx d
           ∨ (shard_idx d' < Z.of_nat (length (sharded_files d)))%Z
    end.
Proof.
  intros Hcase (Hlo & Hi0 & Hi1). unfold cursor_ok.
  destruct Hcase as [?|r d' w' ? Hfetch| |f e ? Hf ?|f rows r d' w' ? Hf ? Hfetch].
  - repeat split; auto.
  - destruct (fetch_cases d w Hi0) as [(p & Hp & Heq)|[_ Heq]];
      rewrite Heq in Hfetch; injection Hfetch as <- <- <-; simpl.
    + apply lookup_lt_Some in Hp. repeat split; auto; lia.
    + repeat split; auto.
  - simpl. repeat split; auto; lia.
  - apply lookup_lt_Some in Hf. simpl.
    destruct e; repeat split; auto; try lia; right; lia.
  - apply lookup_lt_Some in Hf.
    pose proof (loaded_fields d w f rows) as HF.
    destruct (loaded d w f rows) as [d1 w1]. cbn [fst snd] in *.
    destruct HF as (Hsd & Hsh & Hfs & Hfc & _ & _ & Hci & Hsi & _ & _).
    assert (0 ≤ curr_idx d1)%Z as Hi by lia.
    destruct (fetch_cases d1 w1 Hi) as [(p & Hp & Heq)|[_ Heq]];
      rewrite Heq in Hfetch; injection Hfetch as <- <- <-; simpl.
    + apply lookup_lt_Some in Hp.
      repeat split; auto; try lia; right; lia.
    + repeat split; auto; try lia; right; lia.
Qed.

Lemma close_curr_next (d : t) (w : World) :
  w_next (close_curr d w) = w_next w.
Proof. unfold close_curr. by destruct (curr_file d). Qed.

(** Only the current handle is ever open, and a call that opens a shard
    has closed the current file just before. *)
Lemma next_case_handles (d d' : t) (w w' : World) (r : result Entry_Type) :
  next_case fs d w r d' w' → cursor_ok d → handles_ok d w →
  handles_ok d' w'
  ∧ (w_trace w' = w_trace w
     ∨ w_trace w' = closing d ++ w_trace w
     ∨ ∃ f, w_trace w' = EvOpen (w_next w) f :: closing d ++ w_trace w).
Proof.
  intros Hcase (Hlo & Hi0 & Hi1) Hok.
  destruct Hcase as [?|r d' w' ? Hfetch| |f e ? Hf ?|f rows r d' w' ? Hf ? Hfetch].
  - split; [done|by left].
  - destruct (fetch_cases d w Hi0) as [(p & Hp & Heq)|[_ Heq]];
      rewrite Heq in Hfetch; injection Hfetch as <- <- <-;
      (split; [done|by left]).
  - split.
    + unfold handles_ok. rewrite close_curr_open by done.
      apply empty_subseteq.
    + right. left. apply close_curr_trace.
  - split.
    + unfold handles_ok. simpl. rewrite close_curr_open by done.
      by rewrite (right_id_L ∅ (∪)).
    + right. right. exists f. simpl.
      by rewrite close_curr_next, close_curr_trace.
  - pose proof (loaded_fields d w f rows) as HF.
    pose proof (loaded_world d w f rows) as HW.
    destruct (loaded d w f rows) as [d1 w1]. cbn [fst snd] in *.
    destruct HF as (_ & _ & _ & _ & Hcf & _ & Hci & _ & _ & _).
    destruct HW as [Hopen Htrace].
    assert (handles_ok d1 w1) as Hok1.
    { unfold handles_ok.
      rewrite Hcf, Hopen, close_curr_open, close_curr_next by done.
      by rewrite (right_id_L ∅ (∪)). }
    assert (0 ≤ curr_idx d1)%Z as Hi by lia.
    destruct (fetch_cases d1 w1 Hi) as [(p & Hp & Heq)|[_ Heq]];
      rewrite Heq in Hfetch; injection Hfetch as <- <- <-;
      (split; [done|right; right; by exists f]).
Qed.

Lemma next_case_of (d d' : t) (w w' : World) (r : result Entry_Type) :
  (-1 ≤ shard_idx d)%Z → __next__ fs d w = (r, d', w') →
  next_case fs d w r d' w'.
Proof. intros Hlo Hnext. pose proof (next_cases fs d w Hlo) as Hc. by rewrite Hnext in Hc. Qed.

Lemma pulls_invariants (n : nat) :
  ∀ (d : t) (w : World),
    cursor_ok d → handles_ok d w →
    cursor_ok (pulls fs n d w).1.2
    ∧ handles_ok (pulls fs n d w).1.2 (pulls fs n d w).2.
Proof.
  induction n as [|n IH]; intros d w Hc Hh; [done|].
  cbn [pulls]. destruct (__next__ fs d w) as [[r d1] w1] eqn:Hnext.
  apply next_case_of in Hnext; [|apply Hc].
  destruct (next_case_cursor d d1 w w1 r Hnext Hc) as [Hc1 _].
  destruct (next_case_handles d d1 w w1 r Hnext Hc Hh) as [Hh1 _].
  specialize (IH d1 w1 Hc1 Hh1).
  by destruct (pulls fs n d1 w1) as [[rs d2] w2].
Qed.

Lemma run_bounds (cs : list call) :
  ∀ (d : t) (w : World) (stops : nat),
    cursor_ok d →
    (shard_idx d < Z.of_nat (length (sharded_files d)) + Z.of_nat stops)%Z →
    let d' := (run fs cs d w stops).1.1 in
    let stops' := (run fs cs d w stops).2 in
    cursor_ok d'
    ∧ sharded_files d' = sharded_files d
    ∧ file_counts d' = file_counts d
    ∧ (shard_idx d' < Z.of_nat (length (sharded_files d)) + Z.of_nat stops')%Z.
Proof.
  induction cs as [|[|] cs IH]; intros d w stops Hc Hs; [done|..].
  - cbn [run]. destruct (__next__ fs d w) as [[r d1] w1] eqn:Hnext.
    apply next_case_of in Hnext; [|apply Hc].
    destruct (next_case_cursor d d1 w w1 r Hnext Hc)
      as (Hc1 & _ & _ & Hfs & Hfc & Hidx).
    set (stops1 := match r with Raise StopIteration => S stops | _ => stops end).
    destruct (IH d1 w1 stops1 Hc1) as (Hc' & Hfs' & Hfc' & Hs').
    + rewrite Hfs. subst stops1.
      destruct r as [p|[]]; try (destruct Hidx; lia). lia.
    + cbv zeta. rewrite Hfs in Hfs', Hs'. rewrite Hfc in Hfc'. done.
  - cbn [run].
    destruct (IH (reset d) w 0) as (Hc' & Hfs' & Hfc' & Hs'); [| |done].
    + unfold cursor_ok. simpl. lia.
    + simpl. lia.
Qed.

End invariants.

(** An empty shard file is not skipped: the call that reads it in goes on
    to index its empty buffer. *)
Example empty_shard_raises :
  let d0 := (ShardedCSVDataset.__init__ empty_shard "d" false (new_world 0)).1 in
  let w0 := (ShardedCSVDataset.__init__ empty_shard "d" false (new_world 0)).2 in
  ShardedCSVDataset.__len__ d0 = 0
  ∧ (ShardedCSVDataset.pulls empty_shard 2 d0 w0).1.1
    = [Raise IndexError; Raise StopIteration].
Proof. by vm_compute. Qed.

(** ** Range of the two indices *)

(** C9, as the code has it: after any sequence of [__next__] and [reset]
    calls on a freshly constructed reader, the row index lies between 0 and
    the length of the materialised buffer, and the shard index lies between
    -1 and [N - 1 + stops], where [N] is the number of shards and [stops]
    the number of calls that signalled the end of the stream since the last
    [reset]: within [-1, N] up to the first such signal, one more for each
    further one. *)
Theorem cursor_stays_in_range `{Shuffler} (fs : FileSystem) (dir : string)
    (shuffle_flag : bool) (w : World) (cs : list call) :
  let d0 := (ShardedCSVDataset.__init__ fs dir shuffle_flag w).1 in
  let w0 := (ShardedCSVDataset.__init__ fs dir shuffle_flag w).2 in
  let d := (run fs cs d0 w0 0).1.1 in
  let stops := (run fs cs d0 w0 0).2 in
  (-1 ≤ ShardedCSVDataset.shard_idx d
   < Z.of_nat (length (ShardedCSVDataset.sharded_files d0)) + Z.of_nat stops)%Z
  ∧ (0 ≤ ShardedCSVDataset.curr_idx d
     ≤ Z.of_nat (length (ShardedCSVDataset.curr_data d)))%Z.
Proof.
  intros d0 w0 d stops.
  assert (cursor_ok d0) as Hc0.
  { subst d0. unfold ShardedCSVDataset.__init__, cursor_ok.
    destruct shuffle_flag; simpl; lia. }
  assert (ShardedCSVDataset.shard_idx d0 = (-1)%Z) as Hidx0.
  { subst d0. unfold ShardedCSVDataset.__init__. by destruct shuffle_flag. }
  destruct (run_bounds fs cs d0 w0 0 Hc0) as ((Hlo & Hi) & _ & _ & Hhi).
  - rewrite Hidx0. lia.
  - subst d stops. split; [split|]; done.
Qed.

(** C9 as worded fails: on an empty directory the second call of
    [__next__] leaves the shard index at 1, above the number of shards. *)
Lemma shard_index_overshoots :
  let d0 := (ShardedCSVDataset.__init__ empty_dir "d" false (new_world 0)).1 in
  let w0 := (ShardedCSVDataset.__init__ empty_dir "d" false (new_world 0)).2 in
  let d := (ShardedCSVDataset.pulls empty_dir 2 d0 w0).1.2 in
  (ShardedCSVDataset.pulls empty_dir 2 d0 w0).1.1
    = [Raise StopIteration; Raise StopIteration]
  ∧ ShardedCSVDataset.shard_idx d = 1%Z
  ∧ ¬ (-1 ≤ ShardedCSVDataset.shard_idx d
       ≤ Z.of_nat (length (ShardedCSVDataset.sharded_files d)))%Z.
Proof. vm_compute. split; [done|]. split; [done|]. intros [_ Hle]. by apply Hle. Qed.

(** ** Open files *)

(** C8, as the code has it: along any number of [__next__] calls on a
    freshly constructed reader in a world without open files, the only
    handle that can be open is the reader's current one, so at most one
    shard file is open; and whatever a call does to files is nothing, or
    closing the current file, or closing the current file and then opening
    the next shard. *)
Theorem one_shard_open `{Shuffler} (fs : FileSystem) (dir : string)
    (shuffle_flag : bool) (g : rng) (n : nat) :
  let d0 := (ShardedCSVDataset.__init__ fs dir shuffle_flag (new_world g)).1 in
  let w0 := (ShardedCSVDataset.__init__ fs dir shuffle_flag (new_world g)).2 in
  let d := (ShardedCSVDataset.pulls fs n d0 w0).1.2 in
  let w := (ShardedCSVDataset.pulls fs n d0 w0).2 in
  let w' := (ShardedCSVDataset.__next__ fs d w).2 in
  handles_ok d w
  ∧ size (w_open w) ≤ 1
  ∧ (w_trace w' = w_trace w
     ∨ w_trace w' = closing d ++ w_trace w
     ∨ ∃ f, w_trace w' = EvOpen (w_next w) f :: closing d ++ w_trace w).
Proof.
  intros d0 w0 d w w'.
  assert (cursor_ok d0 ∧ handles_ok d0 w0) as [Hc0 Hh0].
  { subst d0 w0. unfold ShardedCSVDataset.__init__, cursor_ok, handles_ok.
    destruct shuffle_flag; simpl; (split; [lia|done]). }
  destruct (pulls_invariants fs n d0 w0 Hc0 Hh0) as [Hc Hh].
  fold d w in Hc, Hh. split; [done|]. split.
  - unfold handles_ok in Hh. apply subseteq_size in Hh.
    destruct (ShardedCSVDataset.curr_file d).
    + by rewrite size_singleton in Hh.
    + rewrite size_empty in Hh. lia.
  - destruct (ShardedCSVDataset.__next__ fs d w) as [[r d1] w1] eqn:Hnext.
    apply next_case_of in Hnext; [|apply Hc].
    by destruct (next_case_handles fs d d1 w w1 r Hnext Hc Hh) as [_ Htrace].
Qed.

(** C8 as worded fails on a shard with a one-field row: materialising it
    raises, and the handle opened for it stays open. *)
Lemma handle_left_open_on_failure :
  let d0 := (ShardedCSVDataset.__init__ short_row "d" false (new_world 0)).1 in
  let w0 := (ShardedCSVDataset.__init__ short_row "d" false (new_world 0)).2 in
  (ShardedCSVDataset.__next__ short_row d0 w0).1.1 = Raise IndexError
  ∧ w_trace (ShardedCSVDataset.__next__ short_row d0 w0).2 = [EvOpen 0 "d/s"]
  ∧ 0 ∈ w_open (ShardedCSVDataset.__next__ short_row d0 w0).2.
Proof.
  split; [by vm_compute|]. split; [by vm_compute|].
  apply (bool_decide_unpack _). by vm_compute.
Qed.

(** [reset] forgets the current file without closing it: a call, a
    [reset] and another call leave two handles open. *)
Example reset_leaves_file_open :
  let d0 := sample_reader.1 in
  let w0 := sample_reader.2 in
  size (w_open (run two_shards [CallNext; CallReset; CallNext] d0 w0 0).1.2)
  = 2.
Proof. by vm_compute. Qed.

(** ** Rows that are not two fields *)

(** C5, as the code has it: when the shard about to be read contains a row
    with fewer than two fields, the call of [__next__] that materialises it
    raises a plain [IndexError] (the exception names neither the shard nor
    the row) and delivers no row; the reader is left on that shard with row
    index 0 and the buffer it had before.  A row with more than two fields
    is not refused: its first two fields make the pair. *)
Theorem short_row_raises_index_error `{Shuffler} (fs : FileSystem)
    (d : ShardedCSVDataset.t) (w : World) (f : string) :
  ShardedCSVDataset.need_shard d = Ok true →
  (-1 ≤ ShardedCSVDataset.shard_idx d)%Z →
  ShardedCSVDataset.sharded_files d
    !! Z.to_nat (ShardedCSVDataset.shard_idx d + 1) = Some f →
  Exists (λ row, length row < 2) (csv_reader fs f) →
  (∃ d' w',
     ShardedCSVDataset.__next__ fs d w = (Raise IndexError, d', w')
     ∧ ShardedCSVDataset.curr_file_name d' = Some f
     ∧ ShardedCSVDataset.shard_idx d' = (ShardedCSVDataset.shard_idx d + 1)%Z
     ∧ ShardedCSVDataset.curr_idx d' = 0%Z
     ∧ ShardedCSVDataset.curr_data d' = ShardedCSVDataset.curr_data d)
  ∧ ∀ a b rest, ShardedCSVDataset.row_pair (a :: b :: rest) = Ok (a, b).
Proof.
  intros Hneed Hlo Hf Hbad. split.
  - apply materialise_short_row in Hbad.
    rewrite (next_load_fail fs d w f IndexError) by done.
    by eexists _, _.
  - intros a b rest. by rewrite row_pair_cases.
Qed.

Lemma short_row_raises_index_error_witness :
  let d0 := (ShardedCSVDataset.__init__ short_row "d" false (new_world 0)).1 in
  let w0 := (ShardedCSVDataset.__init__ short_row "d" false (new_world 0)).2 in
  ∃ d' w',
    ShardedCSVDataset.__next__ short_row d0 w0 = (Raise IndexError, d', w')
    ∧ ShardedCSVDataset.curr_file_name d' = Some "d/s".
Proof.
  intros d0 w0.
  assert (Exists (λ row, length row < 2) (csv_reader short_row "d/s")) as Hbad.
  { apply Exists_cons_hd. simpl. lia. }
  destruct (@short_row_raises_index_error flip_shuffler short_row d0 w0 "d/s"
              eq_refl ltac:(vm_compute; discriminate) eq_refl Hbad)
    as [(d' & w' & Hnext & Hname & _) _].
  exists d', w'. split; [exact Hnext|exact Hname].
Defined.

(** C5 as worded fails on a row of three fields: nothing is raised, the
    call returns the first two fields as the pair. *)
Lemma three_fields_accepted :
  let d0 := (ShardedCSVDataset.__init__ three_fields "d" false (new_world 0)).1 in
  let w0 := (ShardedCSVDataset.__init__ three_fields "d" false (new_world 0)).2 in
  Exists (λ row, length row ≠ 2) (csv_reader three_fields "d/s")
  ∧ (ShardedCSVDataset.__next__ three_fields d0 w0).1.1 = Ok ("a", "b").
Proof.
  split; [|by vm_compute]. apply Exists_cons_hd. simpl. lia.
Qed.

(** After the failed read of a later shard, the rows of the previous
    shard are served again under the new shard's name. *)
Example stale_rows_after_failure :
  let fs := {| listdir := λ _, ["a"; "b"];
               get_num_lines := λ _, 1;
               csv_reader := λ p, if bool_decide (p = "d/a")
                                  then [["x"; "y"]] else [["lonely"]] |} in
  let d0 := (ShardedCSVDataset.__init__ fs "d" false (new_world 0)).1 in
  let w0 := (ShardedCSVDataset.__init__ fs "d" false (new_world 0)).2 in
  (ShardedCSVDataset.pulls fs 4 d0 w0).1.1
  = [Ok ("x", "y"); Raise IndexError; Ok ("x", "y"); Raise StopIteration].
Proof. by vm_compute. Qed.

(** ** A shard with fewer rows than lines *)

Section short_shard.
Context `{Shuffler} (fs : FileSystem).
Import ShardedCSVDataset.

(** Inside a shard, below both the count and the end of the buffer, [k]
    calls return the next [k] rows of the buffer. *)
Lemma pulls_within (k : nat) :
  ∀ (d : t) (w : World) (h : nat) (f : string) (c : nat),
    curr_file d = Some h → curr_file_name d = Some f →
    file_counts d !! f = Some c →
    (0 ≤ curr_idx d)%Z →
    Z.to_nat (curr_idx d) + k ≤ length (curr_data d) →
    length (curr_data d) ≤ c →
    pulls fs k d w =
      (Ok <$> take k (drop (Z.to_nat (curr_idx d)) (curr_data d)),
       set_curr_idx (curr_idx d + Z.of_nat k) d, w).
Proof.
  induction k as [|k IH]; intros d w h f c Hh Hf Hc Hi Hk Hlen.
  - simpl. by rewrite Z.add_0_r, set_curr_idx_same.
  - destruct (lookup_lt_is_Some_2 (curr_data d) (Z.to_nat (curr_idx d)))
      as [p Hp]; [lia|].
    cbn [pulls].
    rewrite (next_in_shard fs d w h f c) by (done || lia).
    rewrite (fetch_at d w p) by done.
    rewrite (IH _ w h f c); simpl; try done; try lia.
    replace (Z.to_nat (curr_idx d + 1)) with (S (Z.to_nat (curr_idx d)))
      by lia.
    rewrite (drop_S _ _ _ Hp). simpl.
    replace (curr_idx d + 1 + Z.of_nat k)%Z
      with (curr_idx d + Z.pos (Pos.of_succ_nat k))%Z by lia.
    done.
Qed.

End short_shard.

(** C10, as the code has it: the guard of [__next__] compares the row
    index with the line count, not with the number of rows materialised.
    When the shard about to be read materialises (every row has its two
    fields) to fewer rows than its line count, the calls deliver those rows
    and the following call indexes the buffer out of range: it raises
    [IndexError] with the reader still on that shard, neither stepping to
    the next shard nor signalling the end of the stream, and every later
    call does the same. *)
Theorem short_shard_index_error `{Shuffler} (fs : FileSystem)
    (d : ShardedCSVDataset.t) (w : World) (f : string) (c : nat)
    (rows : list Entry_Type) :
  ShardedCSVDataset.need_shard d = Ok true →
  (-1 ≤ ShardedCSVDataset.shard_idx d)%Z →
  ShardedCSVDataset.sharded_files d
    !! Z.to_nat (ShardedCSVDataset.shard_idx d + 1) = Some f →
  ShardedCSVDataset.file_counts d !! f = Some c →
  ShardedCSVDataset.materialise (csv_reader fs f) = Ok rows →
  length rows < c →
  ∃ data d1 w1 d2 w2,
    data ≡ₚ rows
    ∧ (ShardedCSVDataset.shuffle d = false → data = rows)
    ∧ ShardedCSVDataset.pulls fs (length rows) d w = (Ok <$> data, d1, w1)
    ∧ ShardedCSVDataset.__next__ fs d1 w1 = (Raise IndexError, d2, w2)
    ∧ ShardedCSVDataset.shard_idx d2 = (ShardedCSVDataset.shard_idx d + 1)%Z
    ∧ ShardedCSVDataset.curr_file_name d2 = Some f
    ∧ ShardedCSVDataset.curr_data d2 = data
    ∧ ShardedCSVDataset.curr_idx d2 = Z.of_nat (length data)
    ∧ ShardedCSVDataset.__next__ fs d2 w2 = (Raise IndexError, d2, w2).
Proof.
  intros Hneed Hlo Hf Hc Hrows Hshort.
  pose proof (next_load fs d w f rows Hneed Hlo Hf Hrows) as Hnext.
  pose proof (loaded_fields d w f rows) as HF.
  destruct (loaded d w f rows) as [dl wl]. cbn [fst snd] in *.
  destruct HF as (_ & _ & _ & Hfc & Hcf & Hcn & Hci & Hsi & Hperm & Hdet).
  rewrite <-Hfc in Hc.
  assert (length (ShardedCSVDataset.curr_data dl) = length rows) as Hlen
    by by rewrite Hperm.
  assert (∀ x w', (x ≤ Z.of_nat (length rows))%Z →
            ShardedCSVDataset.__next__ fs
              (ShardedCSVDataset.set_curr_idx x dl) w'
            = ShardedCSVDataset.fetch
                (ShardedCSVDataset.set_curr_idx x dl) w') as Hin.
  { intros x w' Hx.
    eapply (next_in_shard fs _ w' _ f c); simpl; try done. lia. }
  assert (ShardedCSVDataset.__next__ fs dl wl
          = ShardedCSVDataset.fetch dl wl) as Hdl.
  { rewrite <-(set_curr_idx_same dl). apply Hin. lia. }
  exists (ShardedCSVDataset.curr_data dl).
  destruct (length rows) as [|n] eqn:Hn.
  - exists d, w, dl, wl. split; [done|]. split; [done|].
    apply nil_length_inv in Hlen. rewrite Hlen. simpl.
    split; [done|]. rewrite Hnext.
    assert (ShardedCSVDataset.fetch dl wl = (Raise IndexError, dl, wl)) as Hpast.
    { apply fetch_past. rewrite Hlen, Hci. simpl. lia. }
    rewrite Hpast. repeat split; try done.
    by rewrite Hdl.
  - set (d1 := ShardedCSVDataset.set_curr_idx (Z.of_nat (S n)) dl).
    exists d1, wl, d1, wl. split; [done|]. split; [done|].
    assert (ShardedCSVDataset.pulls fs (S n) d w
            = ShardedCSVDataset.pulls fs (S n) dl wl) as ->.
    { cbn [ShardedCSVDataset.pulls]. by rewrite Hnext, Hdl. }
    rewrite (pulls_within fs (S n) dl wl _ f c Hcf Hcn Hc) by lia.
    rewrite Hci. cbn [Z.to_nat]. rewrite drop_0, take_ge by lia.
    assert (ShardedCSVDataset.fetch d1 wl = (Raise IndexError, d1, wl)) as Hpast.
    { apply fetch_past. subst d1. simpl. lia. }
    subst d1. rewrite Z.add_0_l. rewrite Hin, Hpast by lia.
    simpl. rewrite Hlen. repeat split; done.
Qed.

Lemma short_shard_index_error_witness :
  let d0 := (ShardedCSVDataset.__init__ quoted_break "d" false (new_world 0)).1 in
  let w0 := (ShardedCSVDataset.__init__ quoted_break "d" false (new_world 0)).2 in
  ∃ data d1 w1 d2 w2,
    ShardedCSVDataset.pulls quoted_break 1 d0 w0 = (Ok <$> data, d1, w1)
    ∧ ShardedCSVDataset.__next__ quoted_break d1 w1 = (Raise IndexError, d2, w2)
    ∧ ShardedCSVDataset.shard_idx d2 = 0%Z.
Proof.
  intros d0 w0.
  destruct (@short_shard_index_error flip_shuffler quoted_break d0 w0 "d/s" 2
              [(String "x" (String "010" "y"), "z")]
              eq_refl ltac:(vm_compute; discriminate) eq_refl eq_refl eq_refl
              ltac:(simpl; lia))
    as (data & d1 & w1 & d2 & w2 & _ & _ & Hpulls & Hnext & Hidx & _).
  exists data, d1, w1, d2, w2.
  split; [exact Hpulls|]. split; [exact Hnext|exact Hidx].
Defined.

(** ** Replaying after [reset] *)

Section replay.
Context `{Shuffler} (fs : FileSystem).
Import ShardedCSVDataset.

(** Without shuffling, a call depends neither on the world nor on which
    handle the reader holds. *)
Lemma next_forget (d1 d2 : t) (w1 w2 : World) :
  forget_handle d1 = forget_handle d2 → shuffle d1 = false →
  (__next__ fs d1 w1).1.1 = (__next__ fs d2 w2).1.1
  ∧ forget_handle (__next__ fs d1 w1).1.2
    = forget_handle (__next__ fs d2 w2).1.2
  ∧ shuffle (__next__ fs d1 w1).1.2 = false.
Proof.
  destruct d1 as [dir1 sh1 files1 counts1 cf1 cn1 ci1 cd1 si1].
  destruct d2 as [dir2 sh2 files2 counts2 cf2 cn2 ci2 cd2 si2].
  unfold forget_handle, set_curr_file. simpl.
  intros [= -> -> -> -> Hcf -> -> -> ->] ->.
  unfold __next__, need_shard, load_shard, close_curr, fetch. simpl.
  destruct cf1 as [h1|], cf2 as [h2|]; try discriminate; simpl.
  - destruct (cn2 ≫= _) as [c|]; [|done].
    destruct (bool_decide _); simpl; [|by destruct (py_getitem cd2 ci2)].
    destruct (bool_decide _); simpl; [done|].
    destruct (py_getitem files2 _); simpl; [|done].
    destruct (materialise _); simpl; [|done].
    by destruct (py_getitem _ _).
  - destruct (bool_decide _); simpl; [done|].
    destruct (py_getitem files2 _); simpl; [|done].
    destruct (materialise _); simpl; [|done].
    by destruct (py_getitem _ _).
Qed.

Lemma drain_forget (fuel : nat) :
  ∀ (d1 d2 : t) (w1 w2 : World),
    forget_handle d1 = forget_handle d2 → shuffle d1 = false →
    (drain fs fuel d1 w1).1.1 = (drain fs fuel d2 w2).1.1.
Proof.
  induction fuel as [|fuel IH]; intros d1 d2 w1 w2 Hd Hsh; [done|].
  destruct (next_forget d1 d2 w1 w2 Hd Hsh) as (Hr & Hd' & Hsh').
  cbn [drain].
  destruct (__next__ fs d1 w1) as [[r1 d1'] w1'].
  destruct (__next__ fs d2 w2) as [[r2 d2'] w2'].
  cbn [fst snd] in *. subst r2. destruct r1 as [p|e]; [|done].
  specialize (IH d1' d2' w1' w2' Hd' Hsh').
  destruct (drain fs fuel d1' w1') as [[[ps1 e1] ?] ?].
  destruct (drain fs fuel d2' w2') as [[[ps2 e2] ?] ?].
  cbn [fst snd] in *. by injection IH as -> ->.
Qed.

(** A call that returns a pair uses up one of the rows still to come. *)
Lemma next_case_remaining (d d' : t) (w w' : World) (p : Entry_Type) :
  next_case fs d w (Ok p) d' w' → cursor_ok d →
  remaining fs d' < remaining fs d.
Proof.
  intros Hcase (Hlo & Hi0 & Hi1). unfold remaining.
  inversion Hcase as [|r d0 w0 ? Hfetch| | |f rows r d0 w0 ? Hf Hrows Hfetch];
    subst.
  - destruct (fetch_cases d w Hi0) as [(q & Hq & Heq)|[_ Heq]];
      rewrite Heq in Hfetch; [|done]. injection Hfetch as <- <- <-.
    apply lookup_lt_Some in Hq. simpl. apply Nat.add_lt_mono_r. lia.
  - pose proof (loaded_fields d w f rows) as HF.
    destruct (loaded d w f rows) as [d1 w1]. cbn [fst snd] in *.
    destruct HF as (_ & _ & Hfs & _ & _ & _ & Hci & Hsi & Hperm & _).
    assert (0 ≤ curr_idx d1)%Z as Hi by lia.
    destruct (fetch_cases d1 w1 Hi) as [(q & Hq & Heq)|[_ Heq]];
      rewrite Heq in Hfetch; [|done]. injection Hfetch as <- <- <-.
    apply lookup_lt_Some in Hq. simpl.
    rewrite Hfs, Hsi, Hci, Hperm in *.
    rewrite (materialise_length _ _ Hrows) in *.
    replace (Z.to_nat (shard_idx d + 1 + 1)) with
      (S (Z.to_nat (shard_idx d + 1))) by lia.
    rewrite (drop_S _ _ _ Hf), fmap_cons.
    change (sum_list (?a :: ?l)) with (a + sum_list l).
    generalize (sum_list ((λ f, length (csv_reader fs f)) <$>
                  drop (S (Z.to_nat (shard_idx d + 1))) (sharded_files d))).
    intros rest. lia.
Qed.

(** A drain with more fuel than rows still to come is a full drain, and it
    leaves the list of shards and the line-count index as they were. *)
Lemma drain_full (fuel : nat) :
  ∀ (d : t) (w : World),
    cursor_ok d → remaining fs d < fuel →
    (∃ e, (drain fs fuel d w).1.1.2 = Some e)
    ∧ reset (drain fs fuel d w).1.2 = reset d.
Proof.
  induction fuel as [|fuel IH]; intros d w Hc Hfuel; [lia|].
  cbn [drain]. destruct (__next__ fs d w) as [[r d1] w1] eqn:Hnext.
  apply next_case_of in Hnext; [|apply Hc].
  destruct (next_case_cursor fs d d1 w w1 r Hnext Hc)
    as (Hc1 & Hdir & Hsh & Hfs & Hfc & _).
  assert (reset d1 = reset d) as Hreset.
  { unfold reset. by rewrite Hdir, Hsh, Hfs, Hfc. }
  destruct r as [p|e].
  - pose proof (next_case_remaining d d1 w w1 p Hnext Hc) as Hdec.
    destruct (IH d1 w1 Hc1) as [[e He] Hr]; [lia|].
    destruct (drain fs fuel d1 w1) as [[[ps e'] d2] w2].
    cbn [fst snd] in *. split; [by exists e|]. by rewrite Hr.
  - split; [by exists e|done].
Qed.

End replay.

(** C7: on a reader that does not shuffle, a full drain followed by
    [reset] and a second drain delivers the same pairs in the same order
    and ends the same way; [reset] empties the buffer and sets both indices
    back while the list of shards and the line-count index stay the ones
    built at construction. *)
Theorem reset_replays `{Shuffler} (fs : FileSystem) (dir : string) (w : World) :
  let d0 := (ShardedCSVDataset.__init__ fs dir false w).1 in
  let w0 := (ShardedCSVDataset.__init__ fs dir false w).2 in
  let fuel := S (remaining fs d0) in
  let first := ShardedCSVDataset.drain fs fuel d0 w0 in
  let d1 := ShardedCSVDataset.reset first.1.2 in
  (∃ e, first.1.1.2 = Some e)
  ∧ (ShardedCSVDataset.drain fs fuel d1 first.2).1.1 = first.1.1
  ∧ ShardedCSVDataset.curr_data d1 = []
  ∧ ShardedCSVDataset.curr_idx d1 = 0%Z
  ∧ ShardedCSVDataset.shard_idx d1 = (-1)%Z
  ∧ ShardedCSVDataset.sharded_files d1 = ShardedCSVDataset.sharded_files d0
  ∧ ShardedCSVDataset.file_counts d1 = ShardedCSVDataset.file_counts d0.
Proof.
  intros d0 w0 fuel first d1.
  assert (cursor_ok d0) as Hc0 by (subst d0; unfold cursor_ok; simpl; lia).
  destruct (drain_full fs fuel d0 w0 Hc0) as [Hfull Hreset]; [subst fuel; lia|].
  fold first in Hfull, Hreset. fold d1 in Hreset.
  assert (ShardedCSVDataset.reset d0 = d0) as Hd0 by done.
  rewrite Hd0 in Hreset. split; [done|]. split.
  - subst first. rewrite Hreset. by apply drain_forget.
  - by rewrite Hreset.
Qed.

(** ** The batch assembler *)

Section assembler.
Context `{Shuffler} {D : Type} `{!ShardedDataset D}.
Import ShardedBatchedIterator.

(** The loop always comes to an end within the fuel [__next__] gives it. *)
Lemma pull_loop_total (fuel : nat) :
  ∀ (g : Globals) (curr : option Entry_Type) (src trg : list string)
    (count : Z) (s : D) (w : World),
    (default 0 (g_batch_size g) ≤ count + Z.of_nat fuel)%Z →
    is_Some (pull_loop fuel g curr src trg count s w).
Proof.
  induction fuel as [|fuel IH]; intros g curr src trg count s w Hfuel;
    destruct curr as [c|]; cbn [pull_loop]; try done;
    destruct (g_batch_size g) as [bound|] eqn:Hg; try done;
    simpl in Hfuel; case_bool_decide; try done; try lia.
  destruct (ds_next s w) as [[[v|e] s'] w']; [|done].
  apply IH. rewrite Hg. simpl. lia.
Qed.

Lemma pull_batch_total (g : Globals) (s : D) (w : World) :
  is_Some (pull_batch g s w).
Proof.
  unfold pull_batch.
  destruct (next_or_none s w) as [[[[c|]|e] s'] w']; try done.
  apply pull_loop_total. unfold loop_fuel. lia.
Qed.

(** With no [batch_size] in the module, a stream that has a pair to give
    makes [__next__] raise [NameError], whatever the configured size. *)
Lemma next_name_error (it : t D) (w w' : World) (c : Entry_Type) (s' : D) :
  ds_next (data it) w = (Ok c, s', w') →
  __next__ module_globals it w = Some (Raise NameError, set_data s' it, w').
Proof.
  intros Hnext. unfold __next__, pull_batch, next_or_none.
  by rewrite Hnext.
Qed.

(** A round of the row loop that raises ends the loop with that
    exception. *)
Lemma fill_rows_raised (f : Z → result unit) (ixs : list Z) (e : exn) :
  foldl (λ acc i, _ ←! acc; f i) (Raise e) ixs = Raise e.
Proof. induction ixs as [|i ixs IH]; [done|]. simpl. apply IH. Qed.

Lemma fill_row_raises (vocab : option Vocabulary) (count m : Z)
    (text : string) (texts : list string) :
  is_ok (fill_row vocab (long (torch_Tensor [count; m])) (text :: texts) 0)
  = false.
Proof.
  unfold fill_row. simpl.
  destruct (encode vocab text); [|done]. done.
Qed.

End assembler.

(** C2 on the code: the loop bound is the global name [batch_size], not
    the assembler's field.  On the three-pair corpus with a configured
    size of 2, the first [__next__] raises [NameError]; with a
    [batch_size] of 5 put into the module the bound is 5 and the stream
    running out inside the loop raises [StopIteration] instead of giving a
    short batch; with a [batch_size] of 2 put into the module the only
    round that keeps pairs keeps 2 and has pulled and dropped the third,
    where ⌈3/2⌉ = 2 batches of 2 and 1 rows are claimed. *)
Theorem batch_loop_on_three_pairs :
  let it := sample_iterator 2 in
  let w := sample_reader.2 in
  (ShardedBatchedIterator.__next__ ShardedBatchedIterator.module_globals it w
     ≫= λ r, Some r.1.1) = Some (Raise NameError)
  ∧ ShardedBatchedIterator.pull_counts 3 ShardedBatchedIterator.module_globals
      sample_reader.1 w
    = [Some (Raise NameError); Some (Raise NameError); Some (Raise NameError)]
  ∧ ShardedBatchedIterator.pull_counts 3 (injected 5) sample_reader.1 w
    = [Some (Raise StopIteration); Some (Raise StopIteration);
       Some (Raise StopIteration)]
  ∧ ShardedBatchedIterator.pull_counts 3 (injected 2) sample_reader.1 w
    = [Some (Ok 2%Z); Some (Raise StopIteration); Some (Raise StopIteration)].
Proof. by vm_compute. Qed.

(** C3 on the code: the assembler returns no matrices.  The allocation
    [torch.Tensor((count, max_sequence_length))] is the 1-D tensor of the
    two numbers, nothing is filled with the pad id, and the assignment of
    the first row raises; so for every batch of at least one pair the
    assembly stage raises, and for an empty batch it returns the two
    2-element vectors. *)
Theorem assemble_returns_no_matrix `{Shuffler} {D : Type} `{!ShardedDataset D}
    (it : ShardedBatchedIterator.t D) (text : string) (src trg : list string) :
  is_ok (ShardedBatchedIterator.assemble it (text :: src) trg
           (Z.of_nat (S (length src)))) = false
  ∧ ShardedBatchedIterator.assemble it [] [] 0
    = Ok (Tvector [0%Z; ShardedBatchedIterator.max_sequence_length it],
          Tvector [0%Z; ShardedBatchedIterator.max_sequence_length it]).
Proof.
  split; [|done]. unfold ShardedBatchedIterator.assemble.
  rewrite Nat2Z.id. cbn [seq fmap list_fmap foldl].
  pose proof (fill_row_raises (ShardedBatchedIterator.en_vocab it)
                (Z.of_nat (S (length src)))
                (ShardedBatchedIterator.max_sequence_length it) text src)
    as Hrow.
  cbn [bind].
  destruct (ShardedBatchedIterator.fill_row _ _ (text :: src) _) as [x|e];
    [done|].
  cbn [bind].
  by rewrite (fill_rows_raised
    (λ i, _ ←! ShardedBatchedIterator.fill_row
                 (ShardedBatchedIterator.en_vocab it) _ (text :: src) i;
          _ ←! ShardedBatchedIterator.fill_row
                 (ShardedBatchedIterator.fr_vocab it) _ trg i;
          Ok ())).
Qed.

(** The same on one pair with a known vocabulary and room for four ids. *)
Example assemble_one_pair :
  ShardedBatchedIterator.assemble (sample_iterator 2) ["a b"] ["b"] 1
  = Raise TypeError.
Proof. by vm_compute. Qed.

(** C4 on the code: the text is not split.  Each character of the string,
    blanks included, is looked up as if it were a token: as many lookups as
    characters.  On ["a b"] the code looks up three strings where
    whitespace-delimited tokenisation gives two. *)
Theorem encode_looks_up_characters (v : Vocabulary) (text : string) :
  ShardedBatchedIterator.encode (Some v) text = Ok (word2idx v <$> chars text)
  ∧ length (chars text) = String.length text
  ∧ ShardedBatchedIterator.encode (Some sample_vocab) "a b"
    = Ok [5%Z; 1%Z; 6%Z]
  ∧ word2idx sample_vocab <$> spec_tokenize "a b" = [5%Z; 6%Z].
Proof.
  split; [|split; [|split; by vm_compute]].
  - unfold ShardedBatchedIterator.encode. by destruct (chars text).
  - induction text as [|c text IH]; [done|]. simpl. by rewrite IH.
Qed.

(** C6, as the code has it: constructing an assembler never fails and
    checks nothing; the five arguments are stored as given. *)
Theorem constructor_stores_arguments {D : Type} (batch_size : Z) (data : D)
    (en_vocab fr_vocab : option Vocabulary) (max_sequence_length : Z) :
  ShardedBatchedIterator.__init__ batch_size data en_vocab fr_vocab
    max_sequence_length
  = Ok {| ShardedBatchedIterator.batch_size := batch_size;
          ShardedBatchedIterator.data := data;
          ShardedBatchedIterator.en_vocab := en_vocab;
          ShardedBatchedIterator.fr_vocab := fr_vocab;
          ShardedBatchedIterator.max_sequence_length := max_sequence_length |}.
Proof. reflexivity. Qed.

(** C6 as worded fails: a zero batch size, a negative length and two
    missing vocabularies are accepted at construction; the missing
    vocabulary is met only by the first [__next__], as an
    [AttributeError]. *)
Lemma invalid_configuration_accepted :
  ∃ it,
    ShardedBatchedIterator.__init__ 0 sample_reader.1 None None (-1) = Ok it
    ∧ (ShardedBatchedIterator.__next__ (injected 2) it sample_reader.2
         ≫= λ r, Some r.1.1) = Some (Raise AttributeError).
Proof. eexists. split; [reflexivity|]. by vm_compute. Qed.

(** * Further properties of the reader *)

Lemma py_getitem_raises {A} (l : list A) (i : Z) (e : exn) :
  py_getitem l i = Raise e → e = IndexError.
Proof.
  unfold py_getitem. destruct (_ && _); [|by intros [= <-]].
  destruct (l !! _); [done|by intros [= <-]].
Qed.

Lemma materialise_raises (rows : list (list string)) (e : exn) :
  ShardedCSVDataset.materialise rows = Raise e → e = IndexError.
Proof.
  induction rows as [|row rows IH]; [done|].
  cbn [ShardedCSVDataset.materialise]. rewrite row_pair_cases.
  destruct row as [|a [|b rest]]; simpl; try by intros [= <-].
  destruct (ShardedCSVDataset.materialise rows); [done|].
  simpl. intros [= <-]. by apply IH.
Qed.

(** X1: the list comprehension of line 94 is all or nothing.  It succeeds
    exactly when every row has at least two fields, and then gives one
    pair per row, in order, made of the first two fields (further fields
    are dropped); otherwise it raises [IndexError]. *)
Theorem materialise_all_or_nothing (rows : list (list string)) :
  ShardedCSVDataset.materialise rows =
    if decide (Forall (λ row, 2 ≤ length row) rows)
    then Ok (pair_of <$> rows) else Raise IndexError.
Proof.
  destruct (decide _) as [Hall|Hnot].
  - by apply materialise_well_formed.
  - apply materialise_short_row.
    apply not_Forall_Exists in Hnot; [|apply _].
    eapply Exists_impl; [done|]. simpl. lia.
Qed.

Section more_reader.
Context `{Shuffler} (fs : FileSystem).
Import ShardedCSVDataset.

Lemma fetch_raises (d d' : t) (w w' : World) (e : exn) :
  fetch d w = (Raise e, d', w') → e = IndexError.
Proof.
  unfold fetch. destruct (py_getitem _ _) eqn:Hg; [done|].
  intros [= <- _ _]. by eapply py_getitem_raises.
Qed.

(** The only call that signals the end of the stream is the one that
    steps past the last shard. *)
Lemma next_case_stop (d d' : t) (w w' : World) :
  next_case fs d w (Raise StopIteration) d' w' →
  need_shard d = Ok true
  ∧ (Z.of_nat (length (sharded_files d)) ≤ shard_idx d + 1)%Z
  ∧ d' = set_shard_idx (shard_idx d + 1) d ∧ w' = close_curr d w.
Proof.
  inversion 1 as [|? ? ? ? Hfetch| |? ? ? ? Hmat|? ? ? ? ? ? ? ? Hfetch]; subst.
  - by apply fetch_raises in Hfetch.
  - done.
  - by apply materialise_raises in Hmat.
  - by apply fetch_raises in Hfetch.
Qed.

Lemma pulls_stopped (n : nat) :
  ∀ (d : t) (w : World),
    need_shard d = Ok true →
    (Z.of_nat (length (sharded_files d)) ≤ shard_idx d + 1)%Z →
    (pulls fs n d w).1.1 = replicate n (Raise StopIteration).
Proof.
  induction n as [|n IH]; intros d w Hneed Hlast; [done|].
  cbn [pulls]. rewrite next_stop by done.
  specialize (IH (set_shard_idx (shard_idx d + 1) d) (close_curr d w)).
  destruct (pulls fs n _ _) as [[rs d2] w2]. cbn [fst snd] in *.
  rewrite IH; [done|done|simpl; lia].
Qed.

End more_reader.

(** X2: exhaustion is sticky.  Once a call of [__next__] has signalled the
    end of the stream, every further call does so too and delivers
    nothing, until [reset] is called; a second drain without [reset] is
    empty. *)
Theorem exhaustion_is_sticky `{Shuffler} (fs : FileSystem)
    (d d' : ShardedCSVDataset.t) (w w' : World) (n : nat) :
  (-1 ≤ ShardedCSVDataset.shard_idx d)%Z →
  ShardedCSVDataset.__next__ fs d w = (Raise StopIteration, d', w') →
  (ShardedCSVDataset.pulls fs n d' w').1.1 = replicate n (Raise StopIteration)
  ∧ (ShardedCSVDataset.drain fs (S n) d' w').1.1 = ([], Some StopIteration).
Proof.
  intros Hlo Hnext. apply next_case_of in Hnext; [|done].
  apply next_case_stop in Hnext as (Hneed & Hlast & -> & ->).
  assert (ShardedCSVDataset.need_shard
            (ShardedCSVDataset.set_shard_idx
               (ShardedCSVDataset.shard_idx d + 1) d) = Ok true) as Hneed'
    by done.
  split.
  - apply pulls_stopped; [done|simpl; lia].
  - cbn [ShardedCSVDataset.drain]. rewrite next_stop; [done|done|simpl; lia].
Qed.

Lemma exhaustion_is_sticky_witness :
  let d0 := (ShardedCSVDataset.__init__ empty_dir "d" false (new_world 0)).1 in
  let w0 := (ShardedCSVDataset.__init__ empty_dir "d" false (new_world 0)).2 in
  let d' := (ShardedCSVDataset.__next__ empty_dir d0 w0).1.2 in
  let w' := (ShardedCSVDataset.__next__ empty_dir d0 w0).2 in
  (ShardedCSVDataset.pulls empty_dir 3 d' w').1.1
  = replicate 3 (Raise StopIteration).
Proof.
  intros d0 w0 d' w'.
  exact (proj1 (@exhaustion_is_sticky flip_shuffler empty_dir d0 d' w0 w' 3
                  ltac:(vm_compute; discriminate) eq_refl)).
Defined.

Section histories.
Context `{Shuffler} (fs : FileSystem).
Import ShardedCSVDataset.

(** Whatever is called, [reset] afterwards gives the same object as
    [reset] before. *)
Lemma run_reset (cs : list call) :
  ∀ (d : t) (w : World) (stops : nat),
    cursor_ok d →
    reset (run fs cs d w stops).1.1 = reset d.
Proof.
  induction cs as [|[|] cs IH]; intros d w stops Hc; [done|..]; cbn [run].
  - destruct (__next__ fs d w) as [[r d1] w1] eqn:Hnext.
    apply next_case_of in Hnext; [|apply Hc].
    destruct (next_case_cursor fs d d1 w w1 r Hnext Hc)
      as (Hc1 & Hdir & Hsh & Hfs & Hfc & _).
    rewrite IH by done. unfold reset. by rewrite Hdir, Hsh, Hfs, Hfc.
  - rewrite IH; [done|]. unfold cursor_ok. simpl. lia.
Qed.

Lemma init_cursor_ok (dir : string) (shuffle_flag : bool) (w : World) :
  cursor_ok (__init__ fs dir shuffle_flag w).1
  ∧ reset (__init__ fs dir shuffle_flag w).1 = (__init__ fs dir shuffle_flag w).1
  ∧ shuffle (__init__ fs dir shuffle_flag w).1 = shuffle_flag.
Proof.
  unfold __init__, cursor_ok. destruct shuffle_flag; simpl; repeat split; lia.
Qed.

Lemma count_lines_perm (files files' : list string) :
  files ≡ₚ files' → count_lines fs files = count_lines fs files'.
Proof.
  intros Hperm. apply map_eq. intros f. rewrite !count_lines_lookup.
  destruct (decide (f ∈ files)) as [Hin|Hin].
  - rewrite decide_True; [done|]. by rewrite <-Hperm.
  - rewrite decide_False; [done|]. by rewrite <-Hperm.
Qed.

End histories.

(** X3: [reset] undoes any history.  After any sequence of [__next__] and
    [reset] calls on a reader built by [__init__] (shuffled or not, after
    exceptions or not), [reset] gives back exactly the object that
    [__init__] built: same shard order, same line-count index, empty
    buffer, indices at their start. *)
Theorem reset_restores_constructed_reader `{Shuffler} (fs : FileSystem)
    (dir : string) (shuffle_flag : bool) (w : World) (cs : list call) :
  let d0 := (ShardedCSVDataset.__init__ fs dir shuffle_flag w).1 in
  let w0 := (ShardedCSVDataset.__init__ fs dir shuffle_flag w).2 in
  ShardedCSVDataset.reset (run fs cs d0 w0 0).1.1 = d0.
Proof.
  intros d0 w0.
  destruct (init_cursor_ok fs dir shuffle_flag w) as (Hc & Hr & _).
  fold d0 in Hc, Hr. by rewrite run_reset.
Qed.

(** X4: the length is fixed at construction.  No sequence of [__next__] and
    [reset] calls changes [__len__], the list of shards or the line-count
    index of a reader. *)
Theorem length_is_constant `{Shuffler} (fs : FileSystem)
    (dir : string) (shuffle_flag : bool) (w : World) (cs : list call) :
  let d0 := (ShardedCSVDataset.__init__ fs dir shuffle_flag w).1 in
  let w0 := (ShardedCSVDataset.__init__ fs dir shuffle_flag w).2 in
  let d := (run fs cs d0 w0 0).1.1 in
  ShardedCSVDataset.__len__ d = ShardedCSVDataset.__len__ d0
  ∧ ShardedCSVDataset.sharded_files d = ShardedCSVDataset.sharded_files d0
  ∧ ShardedCSVDataset.file_counts d = ShardedCSVDataset.file_counts d0.
Proof.
  intros d0 w0 d.
  destruct (init_cursor_ok fs dir shuffle_flag w) as (Hc & _ & _).
  pose proof (run_reset fs cs d0 w0 0 Hc) as Hr. fold d in Hr.
  assert (ShardedCSVDataset.file_counts d = ShardedCSVDataset.file_counts d0)
    as Hfc by exact (f_equal ShardedCSVDataset.file_counts Hr).
  split; [|split; [|done]].
  - unfold ShardedCSVDataset.__len__. by rewrite Hfc.
  - exact (f_equal ShardedCSVDataset.sharded_files Hr).
Qed.

(** X5: on a reader that does not shuffle, [reset] replays from the start
    after any history, not only after a full drain: whatever was called
    before, a drain after [reset] delivers the pairs and ends the way a
    drain of the freshly built reader does. *)
Theorem reset_replays_after_any_history `{Shuffler} (fs : FileSystem)
    (dir : string) (w : World) (cs : list call) (fuel : nat) :
  let d0 := (ShardedCSVDataset.__init__ fs dir false w).1 in
  let w0 := (ShardedCSVDataset.__init__ fs dir false w).2 in
  let d := (run fs cs d0 w0 0).1.1 in
  let w1 := (run fs cs d0 w0 0).1.2 in
  (ShardedCSVDataset.drain fs fuel (ShardedCSVDataset.reset d) w1).1.1
  = (ShardedCSVDataset.drain fs fuel d0 w0).1.1.
Proof.
  intros d0 w0 d w1.
  destruct (init_cursor_ok fs dir false w) as (Hc & Hr & Hsh).
  pose proof (run_reset fs cs d0 w0 0 Hc) as Hrun. fold d0 d in Hrun, Hr, Hsh.
  rewrite Hrun, Hr. by apply drain_forget.
Qed.

(** X6: shuffling the shard order changes neither the line-count index nor
    the length: a shuffled reader and an unshuffled one over the same
    directory have the same index and the same [__len__], and their shard
    lists are permutations of each other. *)
Theorem index_ignores_shuffle `{Shuffler} (fs : FileSystem) (dir : string)
    (w w' : World) :
  let ds := (ShardedCSVDataset.__init__ fs dir true w).1 in
  let dn := (ShardedCSVDataset.__init__ fs dir false w').1 in
  ShardedCSVDataset.file_counts ds = ShardedCSVDataset.file_counts dn
  ∧ ShardedCSVDataset.__len__ ds = ShardedCSVDataset.__len__ dn
  ∧ ShardedCSVDataset.sharded_files ds ≡ₚ ShardedCSVDataset.sharded_files dn.
Proof.
  intros ds dn.
  assert (ShardedCSVDataset.sharded_files ds
          ≡ₚ ShardedCSVDataset.sharded_files dn) as Hperm.
  { subst ds dn. unfold ShardedCSVDataset.__init__, shuffle_in. simpl.
    apply random_shuffle_perm. }
  assert (ShardedCSVDataset.file_counts ds = ShardedCSVDataset.file_counts dn)
    as Hfc.
  { subst ds dn. unfold ShardedCSVDataset.__init__, shuffle_in in *. simpl in *.
    by apply count_lines_perm. }
  split; [done|]. split; [|done].
  unfold ShardedCSVDataset.__len__. by rewrite Hfc.
Qed.

Section exceptions.
Context `{Shuffler} (fs : FileSystem).
Import ShardedCSVDataset.

Lemma need_shard_named (d : t) :
  covered d → named_ok d → need_shard d ≠ Raise KeyError.
Proof.
  unfold need_shard. intros Hcov Hnamed.
  destruct (curr_file d) as [h|] eqn:Hcf; [|done].
  destruct Hnamed as (f & -> & Hf); [by eexists|]. simpl.
  by destruct (Hcov f Hf) as [c ->].
Qed.

Lemma next_case_named (d d' : t) (w w' : World) (r : result Entry_Type) :
  next_case fs d w r d' w' → cursor_ok d → named_ok d → named_ok d'.
Proof.
  intros Hcase (Hlo & Hi0 & Hi1) Hnamed. unfold named_ok in *.
  destruct Hcase as [?|r d' w' ? Hfetch| |f e ? Hf ?|f rows r d' w' ? Hf ? Hfetch].
  - done.
  - destruct (fetch_cases d w Hi0) as [(p & Hp & Heq)|[_ Heq]];
      rewrite Heq in Hfetch; by injection Hfetch as <- <- <-.
  - done.
  - simpl. intros _. exists f. split; [done|].
    by eapply list_elem_of_lookup_2.
  - pose proof (loaded_fields d w f rows) as HF.
    destruct (loaded d w f rows) as [d1 w1]. cbn [fst snd] in *.
    destruct HF as (_ & _ & Hfs & _ & _ & Hcn & Hci & _ & _ & _).
    assert (0 ≤ curr_idx d1)%Z as Hi by lia.
    assert (∃ g, curr_file_name d1 = Some g ∧ g ∈ sharded_files d1) as Hd1.
    { exists f. split; [done|]. rewrite Hfs. by eapply list_elem_of_lookup_2. }
    destruct (fetch_cases d1 w1 Hi) as [(p & Hp & Heq)|[_ Heq]];
      rewrite Heq in Hfetch; by injection Hfetch as <- <- <-.
Qed.

Lemma next_case_outcome (d d' : t) (w w' : World) (r : result Entry_Type) :
  next_case fs d w r d' w' → covered d → named_ok d →
  is_ok r = true ∨ r = Raise StopIteration ∨ r = Raise IndexError.
Proof.
  intros Hcase Hcov Hnamed.
  destruct Hcase as [Hkey|r d' w' ? Hfetch| |f e ? Hf Hmat|f rows r d' w' ? Hf ? Hfetch].
  - by destruct (need_shard_named d Hcov Hnamed).
  - destruct r as [p|e]; [by left|].
    apply fetch_raises in Hfetch as ->. by right; right.
  - by right; left.
  - apply materialise_raises in Hmat as ->. by right; right.
  - destruct r as [p|e]; [by left|].
    apply fetch_raises in Hfetch as ->. by right; right.
Qed.

Lemma run_named (cs : list call) :
  ∀ (d : t) (w : World) (stops : nat),
    cursor_ok d → covered d → named_ok d →
    cursor_ok (run fs cs d w stops).1.1
    ∧ covered (run fs cs d w stops).1.1
    ∧ named_ok (run fs cs d w stops).1.1.
Proof.
  induction cs as [|[|] cs IH]; intros d w stops Hc Hcov Hnamed; [done|..];
    cbn [run].
  - destruct (__next__ fs d w) as [[r d1] w1] eqn:Hnext.
    apply next_case_of in Hnext; [|apply Hc].
    destruct (next_case_cursor fs d d1 w w1 r Hnext Hc)
      as (Hc1 & _ & _ & Hfs & Hfc & _).
    apply IH; [done| |by eapply next_case_named].
    unfold covered. by rewrite Hfs, Hfc.
  - apply IH.
    + unfold cursor_ok. simpl. lia.
    + done.
    + unfold named_ok. simpl. by intros [? [=]].
Qed.

End exceptions.

(** X7: what the reader itself can raise.  As long as opening a shard and
    reading it through [csv.reader] do not fail (the standing assumption on
    the file system here), on a reader built by [__init__], after any
    sequence of [__next__] and [reset] calls, a call of [__next__] either
    returns a pair or raises [StopIteration] or [IndexError]; the reader's
    own bookkeeping never fails: the lookup
    [self.file_counts[self.curr_file_name]] never raises [KeyError]. *)
Theorem reader_raises_stop_or_index `{Shuffler} (fs : FileSystem)
    (dir : string) (shuffle_flag : bool) (w : World) (cs : list call) :
  let d0 := (ShardedCSVDataset.__init__ fs dir shuffle_flag w).1 in
  let w0 := (ShardedCSVDataset.__init__ fs dir shuffle_flag w).2 in
  let d := (run fs cs d0 w0 0).1.1 in
  let w1 := (run fs cs d0 w0 0).1.2 in
  let r := (ShardedCSVDataset.__next__ fs d w1).1.1 in
  is_ok r = true ∨ r = Raise StopIteration ∨ r = Raise IndexError.
Proof.
  intros d0 w0 d w1 r.
  destruct (init_cursor_ok fs dir shuffle_flag w) as (Hc & _ & _).
  assert (covered d0) as Hcov.
  { subst d0. unfold covered, ShardedCSVDataset.__init__.
    destruct shuffle_flag; simpl; intros f Hf;
      rewrite count_lines_elem by done; by eexists. }
  assert (named_ok d0) as Hnamed.
  { subst d0. unfold named_ok, ShardedCSVDataset.__init__.
    destruct shuffle_flag; simpl; by intros [? [=]]. }
  destruct (run_named fs cs d0 w0 0 Hc Hcov Hnamed) as (Hc' & Hcov' & Hnamed').
  fold d in Hc', Hcov', Hnamed'.
  destruct (ShardedCSVDataset.__next__ fs d w1) as [[r' d'] w'] eqn:Hnext.
  apply next_case_of in Hnext; [|apply Hc'].
  subst r. cbn [fst snd]. by eapply next_case_outcome.
Qed.

Section open_files.
Context `{Shuffler} (fs : FileSystem).
Import ShardedCSVDataset.

Lemma need_shard_false_file (d : t) :
  need_shard d = Ok false → is_Some (curr_file d).
Proof. unfold need_shard. by destruct (curr_file d); [eexists|]. Qed.

Lemma handles_exactly (d : t) (w : World) (h : nat) :
  handles_ok d w → curr_file d = Some h → h ∈ w_open w → w_open w = {[ h ]}.
Proof.
  unfold handles_ok. intros Hok Hcf Hin. rewrite Hcf in Hok.
  rewrite elem_of_subseteq in Hok. apply set_eq. intros x.
  rewrite elem_of_singleton. split.
  - intros Hx. apply Hok in Hx. by apply elem_of_singleton in Hx.
  - by intros ->.
Qed.

Lemma next_case_live (d d' : t) (w w' : World) (r : result Entry_Type) :
  next_case fs d w r d' w' → cursor_ok d → handles_ok d w → live_ok d w →
  live_ok d' w'
  ∧ (is_ok r = true → ∃ h, curr_file d' = Some h ∧ w_open w' = {[ h ]})
  ∧ (r = Raise StopIteration → w_open w' = ∅).
Proof.
  intros Hcase (Hlo & Hi0 & Hi1) Hok [Hlive Hpast]. unfold live_ok.
  destruct Hcase as [?|r d' w' Hneed Hfetch|Hneed Hlast|f e Hneed Hf ?
                      |f rows r d' w' Hneed Hf ? Hfetch].
  - done.
  - assert (shard_idx d < Z.of_nat (length (sharded_files d)))%Z as Hin.
    { destruct (decide (shard_idx d < Z.of_nat (length (sharded_files d)))%Z);
        [done|]. rewrite Hpast in Hneed by lia. done. }
    destruct (need_shard_false_file d Hneed) as [h Hh].
    pose proof (handles_exactly d w h Hok Hh (Hlive Hin h Hh)) as Hopen.
    destruct (fetch_cases d w Hi0) as [(p & Hp & Heq)|[_ Heq]];
      rewrite Heq in Hfetch; injection Hfetch as <- <- <-; simpl.
    + split; [split; [done|lia]|]. split; [by exists h|done].
    + split; [done|]. by split.
  - simpl. split; [split; [lia|done]|].
    split; [done|]. intros _. by apply close_curr_open.
  - apply lookup_lt_Some in Hf.
    pose proof (close_curr_open d w Hok) as Hcc.
    remember (close_curr d w) as cc eqn:Heqcc. clear Heqcc. simpl.
    rewrite Hcc, (right_id_L ∅ (∪)).
    split; [split; [|lia]|].
    + intros _ h [= <-]. by apply elem_of_singleton.
    + split; [done|]. intros [= ->]. by apply materialise_raises in H0.
  - apply lookup_lt_Some in Hf.
    pose proof (loaded_fields d w f rows) as HF.
    pose proof (loaded_world d w f rows) as HW.
    destruct (loaded d w f rows) as [d1 w1]. cbn [fst snd] in *.
    destruct HF as (_ & _ & Hfs & _ & Hcf & _ & Hci & Hsi & _ & _).
    destruct HW as [Hopen _].
    rewrite close_curr_open, (right_id_L ∅ (∪)), <-(close_curr_next d w)
      in Hopen by done.
    assert (0 ≤ curr_idx d1)%Z as Hi by lia.
    destruct (fetch_cases d1 w1 Hi) as [(p & Hp & Heq)|[_ Heq]];
      rewrite Heq in Hfetch; injection Hfetch as <- <- <-; simpl;
      rewrite Hfs, Hsi, Hcf, Hopen.
    + split; [split; [|lia]|].
      * intros _ h [= <-]. by apply elem_of_singleton.
      * split; [by eexists|done].
    + split; [split; [|lia]|].
      * intros _ h [= <-]. by apply elem_of_singleton.
      * by split.
Qed.

Lemma pulls_live (n : nat) :
  ∀ (d : t) (w : World),
    cursor_ok d → handles_ok d w → live_ok d w →
    cursor_ok (pulls fs n d w).1.2
    ∧ handles_ok (pulls fs n d w).1.2 (pulls fs n d w).2
    ∧ live_ok (pulls fs n d w).1.2 (pulls fs n d w).2.
Proof.
  induction n as [|n IH]; intros d w Hc Hh Hl; [done|].
  cbn [pulls]. destruct (__next__ fs d w) as [[r d1] w1] eqn:Hnext.
  apply next_case_of in Hnext; [|apply Hc].
  destruct (next_case_cursor fs d d1 w w1 r Hnext Hc) as [Hc1 _].
  destruct (next_case_handles fs d d1 w w1 r Hnext Hc Hh) as [Hh1 _].
  destruct (next_case_live d d1 w w1 r Hnext Hc Hh Hl) as [Hl1 _].
  specialize (IH d1 w1 Hc1 Hh1 Hl1).
  by destruct (pulls fs n d1 w1) as [[rs d2] w2].
Qed.

End open_files.

(** X8: which file is open after a call.  On a reader built by [__init__]
    in a world without open files, after any number of [__next__] calls:
    when the next call returns a pair, exactly one file is open afterwards,
    the reader's current one (so a caller that stops pulling early leaves
    that shard file open); when it signals the end of the stream, no file
    is open afterwards. *)
Theorem open_file_after_call `{Shuffler} (fs : FileSystem) (dir : string)
    (shuffle_flag : bool) (g : rng) (n : nat) :
  let d0 := (ShardedCSVDataset.__init__ fs dir shuffle_flag (new_world g)).1 in
  let w0 := (ShardedCSVDataset.__init__ fs dir shuffle_flag (new_world g)).2 in
  let d := (ShardedCSVDataset.pulls fs n d0 w0).1.2 in
  let w := (ShardedCSVDataset.pulls fs n d0 w0).2 in
  let r := (ShardedCSVDataset.__next__ fs d w).1.1 in
  let d' := (ShardedCSVDataset.__next__ fs d w).1.2 in
  let w' := (ShardedCSVDataset.__next__ fs d w).2 in
  (is_ok r = true →
   ∃ h, ShardedCSVDataset.curr_file d' = Some h ∧ w_open w' = {[ h ]})
  ∧ (r = Raise StopIteration → w_open w' = ∅).
Proof.
  intros d0 w0 d w r d' w'.
  assert (cursor_ok d0 ∧ handles_ok d0 w0 ∧ live_ok d0 w0) as (Hc0 & Hh0 & Hl0).
  { subst d0 w0.
    unfold ShardedCSVDataset.__init__, cursor_ok, handles_ok, live_ok.
    destruct shuffle_flag; simpl;
      (split; [lia|split; [done|split; [done|lia]]]). }
  destruct (pulls_live fs n d0 w0 Hc0 Hh0 Hl0) as (Hc & Hh & Hl).
  fold d w in Hc, Hh, Hl.
  destruct (ShardedCSVDataset.__next__ fs d w) as [[r1 d1] w1] eqn:Hnext.
  apply next_case_of in Hnext; [|apply Hc].
  by destruct (next_case_live fs d d1 w w1 r1 Hnext Hc Hh Hl) as [_ Hres].
Qed.

Section surplus.
Context `{Shuffler} (fs : FileSystem).
Import ShardedCSVDataset.

(** Inside a shard, below the count and within the buffer, [k] calls
    return the next [k] rows, however long the buffer is. *)
Lemma pulls_below_count (k : nat) :
  ∀ (d : t) (w : World) (h : nat) (f : string) (c : nat),
    curr_file d = Some h → curr_file_name d = Some f →
    file_counts d !! f = Some c →
    (0 ≤ curr_idx d)%Z →
    Z.to_nat (curr_idx d) + k ≤ length (curr_data d) →
    Z.to_nat (curr_idx d) + k ≤ c →
    pulls fs k d w =
      (Ok <$> take k (drop (Z.to_nat (curr_idx d)) (curr_data d)),
       set_curr_idx (curr_idx d + Z.of_nat k) d, w).
Proof.
  induction k as [|k IH]; intros d w h f c Hh Hf Hc Hi Hk Hlen.
  - simpl. by rewrite Z.add_0_r, set_curr_idx_same.
  - destruct (lookup_lt_is_Some_2 (curr_data d) (Z.to_nat (curr_idx d)))
      as [p Hp]; [lia|].
    cbn [pulls].
    rewrite (next_in_shard fs d w h f c) by (done || lia).
    rewrite (fetch_at d w p) by done.
    rewrite (IH _ w h f c); simpl; try done; try lia.
    replace (Z.to_nat (curr_idx d + 1)) with (S (Z.to_nat (curr_idx d)))
      by lia.
    rewrite (drop_S _ _ _ Hp). simpl.
    replace (curr_idx d + 1 + Z.of_nat k)%Z
      with (curr_idx d + Z.pos (Pos.of_succ_nat k))%Z by lia.
    done.
Qed.

Lemma fetch_shard_idx (d d' : t) (w w' : World) (r : result Entry_Type) :
  fetch d w = (r, d', w') → shard_idx d' = shard_idx d.
Proof.
  unfold fetch. destruct (py_getitem _ _); by intros [= <- <- <-].
Qed.

(** A call made when the guard asks for a shard moves the shard index on
    by one, whatever else it does. *)
Lemma next_leaves_shard (d : t) (w : World) :
  need_shard d = Ok true → (-1 ≤ shard_idx d)%Z →
  shard_idx (__next__ fs d w).1.2 = (shard_idx d + 1)%Z.
Proof.
  intros Hneed Hlo.
  destruct (__next__ fs d w) as [[r d'] w'] eqn:Hnext.
  apply next_case_of in Hnext; [|done]. cbn [fst snd].
  destruct Hnext as [Hn|r d' w' Hn Hfetch| |f e ? Hf ?|f rows r d' w' ? Hf ? Hfetch];
    try congruence; try done.
  apply fetch_shard_idx in Hfetch. rewrite Hfetch.
  by destruct (loaded_fields d w f rows) as (_ & _ & _ & _ & _ & _ & _ & -> & _).
Qed.

End surplus.

(** X9: the reader leaves a shard at its line count, not at the end of
    its buffer.  When the shard about to be read materialises to at least
    one row and to at least as many rows as its line count [c], the next
    [max 1 c] calls return the first [max 1 c] rows of the buffer (one row
    even when the count is 0), and the call after those no longer reads
    this shard: it moves the shard index on, to the next shard or past the
    last one, with the rows beyond that point still in the buffer. *)
Theorem reader_leaves_shard_at_line_count `{Shuffler} (fs : FileSystem)
    (d : ShardedCSVDataset.t) (w : World) (f : string) (c : nat)
    (rows : list Entry_Type) :
  ShardedCSVDataset.need_shard d = Ok true →
  (-1 ≤ ShardedCSVDataset.shard_idx d)%Z →
  ShardedCSVDataset.sharded_files d
    !! Z.to_nat (ShardedCSVDataset.shard_idx d + 1) = Some f →
  ShardedCSVDataset.file_counts d !! f = Some c →
  ShardedCSVDataset.materialise (csv_reader fs f) = Ok rows →
  0 < length rows → c ≤ length rows →
  ∃ data d1 w1,
    data ≡ₚ rows
    ∧ (ShardedCSVDataset.shuffle d = false → data = rows)
    ∧ ShardedCSVDataset.pulls fs (Nat.max 1 c) d w
      = (Ok <$> take (Nat.max 1 c) data, d1, w1)
    ∧ ShardedCSVDataset.curr_data d1 = data
    ∧ ShardedCSVDataset.curr_idx d1 = Z.of_nat (Nat.max 1 c)
    ∧ ShardedCSVDataset.shard_idx d1 = (ShardedCSVDataset.shard_idx d + 1)%Z
    ∧ ShardedCSVDataset.need_shard d1 = Ok true
    ∧ ShardedCSVDataset.shard_idx (ShardedCSVDataset.__next__ fs d1 w1).1.2
      = (ShardedCSVDataset.shard_idx d + 2)%Z.
Proof.
  intros Hneed Hlo Hf Hc Hrows Hpos Hle.
  pose proof (next_load fs d w f rows Hneed Hlo Hf Hrows) as Hnext.
  pose proof (loaded_fields d w f rows) as HF.
  destruct (loaded d w f rows) as [dl wl]. cbn [fst snd] in *.
  destruct HF as (_ & _ & _ & Hfc & Hcf & Hcn & Hci & Hsi & Hperm & Hdet).
  rewrite <-Hfc in Hc.
  assert (length (ShardedCSVDataset.curr_data dl) = length rows) as Hlen
    by by rewrite Hperm.
  destruct (ShardedCSVDataset.curr_data dl) as [|p data] eqn:Hdata;
    [simpl in Hlen; lia|].
  assert (ShardedCSVDataset.fetch dl wl
          = (Ok p, ShardedCSVDataset.set_curr_idx 1 dl, wl)) as Hfetch.
  { rewrite (fetch_at dl wl p); rewrite ?Hci; [done|lia|by rewrite Hdata]. }
  set (d1 := ShardedCSVDataset.set_curr_idx 1 dl).
  set (k := Nat.max 1 c).
  assert (ShardedCSVDataset.pulls fs (k - 1) d1 wl
          = (Ok <$> take (k - 1) data,
             ShardedCSVDataset.set_curr_idx (Z.of_nat k) dl, wl)) as Hrest.
  { destruct (decide (k = 1)) as [->|Hk].
    - done.
    - rewrite (pulls_below_count fs (k - 1) d1 wl
                 (w_next (ShardedCSVDataset.close_curr d w)) f c);
        subst d1; simpl;
        rewrite ?Hdata; try done; simpl in *; try lia.
      rewrite drop_0.
      by replace (1 + Z.of_nat (k - 1))%Z with (Z.of_nat k) by lia. }
  exists (p :: data), (ShardedCSVDataset.set_curr_idx (Z.of_nat k) dl), wl.
  assert (ShardedCSVDataset.need_shard
            (ShardedCSVDataset.set_curr_idx (Z.of_nat k) dl) = Ok true)
    as Hleft.
  { unfold ShardedCSVDataset.need_shard. simpl. rewrite Hcf, Hcn. simpl.
    rewrite Hc. by rewrite bool_decide_true by lia. }
  split; [done|]. split; [done|].
  split; [|split; [done|split; [done|split; [done|split; [done|]]]]].
  - replace k with (S (k - 1)) at 1 2 by lia.
    cbn [ShardedCSVDataset.pulls]. rewrite Hnext, Hfetch. fold d1.
    by rewrite Hrest.
  - rewrite next_leaves_shard; [simpl; lia|done|simpl; lia].
Qed.

Lemma reader_leaves_shard_at_line_count_witness :
  let fs := {| listdir := λ _, ["s"]; get_num_lines := λ _, 1;
               csv_reader := λ _, [["a"; "b"]; ["c"; "d"]] |} in
  let d0 := (ShardedCSVDataset.__init__ fs "d" false (new_world 0)).1 in
  let w0 := (ShardedCSVDataset.__init__ fs "d" false (new_world 0)).2 in
  ∃ data d1 w1,
    ShardedCSVDataset.pulls fs 1 d0 w0 = (Ok <$> take 1 data, d1, w1)
    ∧ ShardedCSVDataset.curr_data d1 = data
    ∧ ShardedCSVDataset.shard_idx (ShardedCSVDataset.__next__ fs d1 w1).1.2
      = 1%Z.
Proof.
  intros fs d0 w0.
  destruct (@reader_leaves_shard_at_line_count flip_shuffler fs d0 w0 "d/s" 1
              [("a", "b"); ("c", "d")]
              eq_refl ltac:(vm_compute; discriminate) eq_refl eq_refl eq_refl
              ltac:(simpl; lia) ltac:(simpl; lia))
    as (data & d1 & w1 & _ & _ & Hpulls & Hdata & _ & _ & _ & Hnext).
  exists data, d1, w1. split; [exact Hpulls|]. split; [exact Hdata|exact Hnext].
Defined.

(** * Further properties of the batch assembler *)

Section pull_stage.
Context `{Shuffler} {D : Type} `{!ShardedDataset D}.
Import ShardedBatchedIterator.

(** The loop, with [k] rounds to go, against a plain drain of the stream:
    it makes [k] further pulls, keeps the pair in hand and the first
    [k - 1] pairs pulled, and drops the last one; the first exception met
    ends it. *)
Lemma pull_loop_spec (k : nat) :
  ∀ (fuel : nat) (g : Globals) (bound : Z) (c : Entry_Type)
    (src trg : list string) (count : Z) (s : D) (w : World),
    g_batch_size g = Some bound →
    (count + Z.of_nat k = bound)%Z → k ≤ fuel →
    pull_loop fuel g (Some c) src trg count s w =
      let '(ps, e, s', w') := stream_drain k s w in
      Some (match e with
            | None => Ok (src ++ (take k (c :: ps)).*1,
                          trg ++ (take k (c :: ps)).*2, bound)
            | Some e => Raise e
            end, s', w').
Proof.
  induction k as [|k IH]; intros fuel g bound c src trg count s w Hg Hk Hfuel.
  - assert (count = bound) as -> by lia.
    destruct fuel; cbn [pull_loop stream_drain]; rewrite Hg;
      rewrite bool_decide_false by lia; simpl;
      by rewrite !(right_id_L [] (++)).
  - destruct fuel as [|fuel]; [lia|].
    cbn [pull_loop stream_drain]. rewrite Hg.
    rewrite bool_decide_true by lia.
    destruct (ds_next s w) as [[[v|e] s1] w1]; [|done].
    rewrite (IH fuel g bound) by (done || lia).
    destruct (stream_drain k s1 w1) as [[[ps e] s'] w'].
    destruct e as [e|]; [done|].
    cbn [take fmap list_fmap]. by rewrite <-!app_assoc.
Qed.



End pull_stage.

(** X10: the pull stage under a positive module-level [batch_size] of [b].
    One round makes up to [b + 1] pulls on the stream.  If all of them
    return a pair, the round keeps the first [b] pairs (sources and targets
    in pull order, counter [b]) and the pair pulled last is dropped; if one
    of them raises, the round raises that exception and keeps nothing.  So
    a round never gives fewer than [b] rows, and every round that succeeds
    costs the stream [b + 1] pairs. *)
Theorem pull_batch_keeps_bound_drops_one `{Shuffler} {D : Type}
    `{!ShardedDataset D} (g : ShardedBatchedIterator.Globals) (b : Z)
    (s : D) (w : World) :
  ShardedBatchedIterator.g_batch_size g = Some b → (0 < b)%Z →
  ShardedBatchedIterator.pull_batch g s w =
    let '(ps, e, s', w') := stream_drain (S (Z.to_nat b)) s w in
    Some (match e with
          | None => Ok ((take (Z.to_nat b) ps).*1,
                        (take (Z.to_nat b) ps).*2, b)
          | Some e => Raise e
          end, s', w').
Proof.
  intros Hg Hb.
  unfold ShardedBatchedIterator.pull_batch, ShardedBatchedIterator.next_or_none.
  cbn [stream_drain].
  destruct (ds_next s w) as [[[c|e] s1] w1]; [|by destruct e].
  rewrite (pull_loop_spec (Z.to_nat b) _ g b).
  - by destruct (stream_drain (Z.to_nat b) s1 w1) as [[[ps [e|]] s'] w'].
  - done.
  - lia.
  - unfold ShardedBatchedIterator.loop_fuel. by rewrite Hg.
Qed.

Lemma pull_batch_keeps_bound_drops_one_witness :
  ShardedBatchedIterator.pull_batch (injected 2) sample_reader.1 sample_reader.2
  = let '(ps, e, s', w') := stream_drain 3 sample_reader.1 sample_reader.2 in
    Some (match e with
          | None => Ok ((take 2 ps).*1, (take 2 ps).*2, 2%Z)
          | Some e => Raise e
          end, s', w').
Proof.
  exact (@pull_batch_keeps_bound_drops_one flip_shuffler _ sample_stream
           (injected 2) 2 sample_reader.1 sample_reader.2
           eq_refl ltac:(lia)).
Defined.



(** * Order of the shards and end of the iteration *)

Section order.
Context `{Shuffler} (fs : FileSystem).
Import ShardedCSVDataset.

Lemma drain_length (fuel : nat) :
  ∀ (d : t) (w : World),
    is_Some (drain fs fuel d w).1.1.2 →
    length (drain fs fuel d w).1.1.1 < fuel.
Proof.
  induction fuel as [|fuel IH]; intros d w; [by intros [? [=]]|].
  cbn [drain]. destruct (__next__ fs d w) as [[[p|e] d1] w1]; [|simpl; lia].
  specialize (IH d1 w1).
  destruct (drain fs fuel d1 w1) as [[[ps e] d2] w2]. simpl in *.
  intros He. specialize (IH He). lia.
Qed.

(** A call leaves the shard index alone and touches no file, or moves it
    up by one: past the last shard, or onto the shard of that index, which
    it opens after closing the current file. *)
Lemma next_case_step (d d' : t) (w w' : World) (r : result Entry_Type) :
  next_case fs d w r d' w' → cursor_ok d →
  (shard_idx d' = shard_idx d ∧ w_trace w' = w_trace w)
  ∨ (shard_idx d' = (shard_idx d + 1)%Z
     ∧ ((r = Raise StopIteration
         ∧ (Z.of_nat (length (sharded_files d)) ≤ shard_idx d')%Z
         ∧ w_trace w' = closing d ++ w_trace w)
        ∨ ∃ f, sharded_files d !! Z.to_nat (shard_idx d') = Some f
               ∧ curr_file_name d' = Some f
               ∧ w_trace w' = EvOpen (w_next w) f :: closing d ++ w_trace w)).
Proof.
  intros Hcase (Hlo & Hi0 & Hi1).
  destruct Hcase as [?|r d' w' ? Hfetch| |f e ? Hf ?|f rows r d' w' ? Hf ? Hfetch].
  - by left.
  - left. destruct (fetch_cases d w Hi0) as [(p & Hp & Heq)|[_ Heq]];
      rewrite Heq in Hfetch; by injection Hfetch as <- <- <-.
  - right. split; [done|]. left. split; [done|]. split; [simpl; lia|].
    apply close_curr_trace.
  - right. split; [done|]. right. exists f. simpl.
    by rewrite close_curr_next, close_curr_trace.
  - right.
    pose proof (loaded_fields d w f rows) as HF.
    pose proof (loaded_world d w f rows) as HW.
    destruct (loaded d w f rows) as [d1 w1]. cbn [fst snd] in *.
    destruct HF as (_ & _ & _ & _ & _ & Hcn & Hci & Hsi & _ & _).
    destruct HW as [_ Htrace].
    assert (0 ≤ curr_idx d1)%Z as Hi by lia.
    destruct (fetch_cases d1 w1 Hi) as [(p & Hp & Heq)|[_ Heq]];
      rewrite Heq in Hfetch; injection Hfetch as <- <- <-; simpl;
      rewrite Hsi; (split; [done|]); right; by exists f.
Qed.

End order.

(** X12: shards are read strictly in list order.  On a reader built by
    [__init__], after any sequence of [__next__] and [reset] calls, one more
    call of [__next__] either leaves the shard index as it is and touches
    no file, or raises the index by exactly one; in the second case it
    either signals the end of the stream (the index is past the last shard
    and only the current file is closed) or it closes the current file and
    then opens the shard that the list holds at the new index, whose name
    becomes the current file name.  No shard is skipped or read out of
    turn. *)
Theorem shards_read_in_list_order `{Shuffler} (fs : FileSystem)
    (dir : string) (shuffle_flag : bool) (w : World) (cs : list call) :
  let d0 := (ShardedCSVDataset.__init__ fs dir shuffle_flag w).1 in
  let w0 := (ShardedCSVDataset.__init__ fs dir shuffle_flag w).2 in
  let d := (run fs cs d0 w0 0).1.1 in
  let w1 := (run fs cs d0 w0 0).1.2 in
  let r := (ShardedCSVDataset.__next__ fs d w1).1.1 in
  let d' := (ShardedCSVDataset.__next__ fs d w1).1.2 in
  let w' := (ShardedCSVDataset.__next__ fs d w1).2 in
  (ShardedCSVDataset.shard_idx d' = ShardedCSVDataset.shard_idx d
   ∧ w_trace w' = w_trace w1)
  ∨ (ShardedCSVDataset.shard_idx d' = (ShardedCSVDataset.shard_idx d + 1)%Z
     ∧ ((r = Raise StopIteration
         ∧ (Z.of_nat (length (ShardedCSVDataset.sharded_files d))
            ≤ ShardedCSVDataset.shard_idx d')%Z
         ∧ w_trace w' = closing d ++ w_trace w1)
        ∨ ∃ f, ShardedCSVDataset.sharded_files d
                 !! Z.to_nat (ShardedCSVDataset.shard_idx d') = Some f
               ∧ ShardedCSVDataset.curr_file_name d' = Some f
               ∧ w_trace w' = EvOpen (w_next w1) f :: closing d ++ w_trace w1)).
Proof.
  intros d0 w0 d w1 r d' w'.
  destruct (init_cursor_ok fs dir shuffle_flag w) as (Hc0 & _ & _).
  assert (ShardedCSVDataset.shard_idx d0 = (-1)%Z) as Hidx0.
  { subst d0. unfold ShardedCSVDataset.__init__. by destruct shuffle_flag. }
  destruct (run_bounds fs cs d0 w0 0 Hc0) as (Hc & _); [rewrite Hidx0; lia|].
  fold d in Hc. subst r d' w'.
  destruct (ShardedCSVDataset.__next__ fs d w1) as [[r1 d1] w2] eqn:Hnext.
  apply next_case_of in Hnext; [|apply Hc].
  by apply (next_case_step fs d d1 w1 w2 r1).
Qed.

(** X13: iterating always comes to an end.  Whatever the files hold, a drain
    of a freshly built reader meets an exception after delivering at most
    as many pairs as the shards have parsed rows in all; it cannot go on
    for ever. *)
Theorem drain_always_ends `{Shuffler} (fs : FileSystem) (dir : string)
    (shuffle_flag : bool) (w : World) :
  let d0 := (ShardedCSVDataset.__init__ fs dir shuffle_flag w).1 in
  let w0 := (ShardedCSVDataset.__init__ fs dir shuffle_flag w).2 in
  let rows := sum_list ((λ f, length (csv_reader fs f)) <$>
                          ShardedCSVDataset.sharded_files d0) in
  let res := ShardedCSVDataset.drain fs (S rows) d0 w0 in
  is_Some res.1.1.2 ∧ length res.1.1.1 ≤ rows.
Proof.
  intros d0 w0 rows res.
  destruct (init_cursor_ok fs dir shuffle_flag w) as (Hc0 & _ & _).
  assert (remaining fs d0 = rows) as Hrem.
  { subst d0 rows. unfold remaining, ShardedCSVDataset.__init__.
    by destruct shuffle_flag. }
  destruct (drain_full fs (S rows) d0 w0 Hc0) as [[e He] _]; [lia|].
  fold res in He.
  assert (is_Some res.1.1.2) as Hsome by (by exists e).
  split; [done|].
  pose proof (drain_length fs (S rows) d0 w0 Hsome) as Hlen.
  fold res in Hlen. lia.
Qed.

(** * A short shard behind a stale buffer *)

Section stale.
Context `{Shuffler} (fs : FileSystem).
Import ShardedCSVDataset.

Lemma pulls_add (n m : nat) :
  ∀ (d : t) (w : World),
    pulls fs (n + m) d w =
      let '(rs, d1, w1) := pulls fs n d w in
      let '(rs', d2, w2) := pulls fs m d1 w1 in
      (rs ++ rs', d2, w2).
Proof.
  induction n as [|n IH]; intros d w.
  - simpl. by destruct (pulls fs m d w) as [[rs' d2] w2].
  - cbn [Nat.add pulls]. destruct (__next__ fs d w) as [[r d0] w0].
    rewrite IH. destruct (pulls fs n d0 w0) as [[rs d1] w1].
    by destruct (pulls fs m d1 w1) as [[rs' d2] w2].
Qed.

(** Past the last shard the reader stays where the guard asks for a shard
    that is not there. *)
Lemma pulls_stopped_state (m : nat) :
  ∀ (d : t) (w : World),
    need_shard d = Ok true →
    (Z.of_nat (length (sharded_files d)) ≤ shard_idx d + 1)%Z →
    let d' := (pulls fs m d w).1.2 in
    need_shard d' = Ok true
    ∧ (Z.of_nat (length (sharded_files d')) ≤ shard_idx d' + 1)%Z.
Proof.
  induction m as [|m IH]; intros d w Hneed Hlast; [done|].
  cbn [pulls]. rewrite next_stop by done.
  specialize (IH (set_shard_idx (shard_idx d + 1) d) (close_curr d w)).
  destruct (pulls fs m _ _) as [[rs d2] w2]. cbn [fst snd] in *.
  apply IH; [done|simpl; lia].
Qed.

End stale.

(** C10 as worded fails when the short shard does not materialise: [d/b]
    parses to one row for two lines, but the row has one field, so the
    [IndexError] of the third call comes from [row[1]]; the reader is left
    on [d/b] with the two rows of [d/a] still in the buffer, serves them
    again and then signals the end of the stream.  No call indexes the
    buffer out of range while [d/b] is current. *)
Lemma short_shard_behind_stale_rows :
  let d0 := (ShardedCSVDataset.__init__ short_after_good "d" false
               (new_world 0)).1 in
  let w0 := (ShardedCSVDataset.__init__ short_after_good "d" false
               (new_world 0)).2 in
  length (csv_reader short_after_good "d/b")
    < get_num_lines short_after_good "d/b"
  ∧ (ShardedCSVDataset.pulls short_after_good 6 d0 w0).1.1
    = [Ok ("x", "y"); Ok ("u", "v"); Raise IndexError;
       Ok ("x", "y"); Ok ("u", "v"); Raise StopIteration]
  ∧ ¬ buffer_overrun short_after_good d0 w0 "d/b".
Proof.
  intros d0 w0. split; [simpl; lia|]. split; [by vm_compute|].
  intros [n (Hr & Hname & Hle)].
  destruct n as [|[|[|[|[|[|m]]]]]].
  1-6: vm_compute in Hr; try discriminate Hr.
  - vm_compute in Hle. by apply Hle.
  - change (S (S (S (S (S (S m)))))) with (6 + m) in Hr.
    rewrite pulls_add in Hr.
    destruct (ShardedCSVDataset.pulls short_after_good 6 d0 w0)
      as [[rs d6] w6] eqn:H6.
    assert (ShardedCSVDataset.need_shard d6 = Ok true
            ∧ (Z.of_nat (length (ShardedCSVDataset.sharded_files d6))
               ≤ ShardedCSVDataset.shard_idx d6 + 1)%Z) as [Hneed Hlast].
    { replace d6 with
        (ShardedCSVDataset.pulls short_after_good 6 d0 w0).1.2
        by by rewrite H6.
      split; [by vm_compute|]. vm_compute. discriminate. }
    pose proof (pulls_stopped_state short_after_good m d6 w6 Hneed Hlast)
      as [Hneed' Hlast'].
    destruct (ShardedCSVDataset.pulls short_after_good m d6 w6)
      as [[rs' d7] w7].
    cbn [fst snd] in *. rewrite next_stop in Hr by done. discriminate Hr.
Qed.
